(** * visualize-zeta: the numerical core

    A shallow embedding of the computation layer of the repository: the
    [ComplexNumber] class and [zeta] of the zeta view, and the data
    generation of [initPrimes] in [src/primes.ts] ([isPrime], the step points
    of the prime counting function, the quadrature of Li, the explicit-formula
    waves and the Riemann sum).  Modules [InitPrimes] and [InitZeta] add the
    rest of the data generation of the two views: the curve x / ln x, the
    sample points and the depth of each wave, and, for the zeta view, the
    curve of [createZetaCurve] and the step, Li and x / ln x curves in
    world coordinates.  The scene graph, the labels and the tab switcher
    only pass these data to three.js and the DOM and are not modelled.

    The source computes on JavaScript numbers.  The embedding of the
    floating-point code is written once, over the signature [Number] of the
    operations the source uses, and is read in two models:

    - [Number float]: IEEE 754 binary64 (Rocq's primitive floats).  [Math.sqrt]
      and [Math.abs] are the primitive operations; [Math.log], [Math.exp],
      [Math.cos] and [Math.sin] are implementation-approximated in ECMAScript
      and stay a parameter ([Libm]), constrained only where a statement needs
      it.
    - [Number R]: the exact-real reading, with [Math.*] the real functions.
      Statements made in this model say nothing about rounding, and are
      meant where the source takes logarithms of positive numbers and
      divides by non-zero ones (Rocq's [ln] and [/] are total).  They stand
      beside a statement in binary64, or in every model of [Number], and
      show what the rounding changes.

    Integer-valued numbers (loop counters, primes, counts) are modelled in [Z];
    they are exact in binary64 below 2^53.

    Loops.  A loop over an integer counter is a recursion on its trip count.
    A loop that adds a step to a number until it passes a bound takes fuel
    and returns [None] when the fuel runs out; the statements about such a
    loop say that it returns with enough fuel and that its result does not
    depend on the fuel. *)

From Stdlib Require Import Floats.
From Stdlib Require Import ZArith List Bool Lia Sorted QArith Qreals.
From Stdlib Require Import Reals Lra.
Import ListNotations.
Close Scope Q_scope.

(** ** The operations on numbers used by the source *)

Class Number (num : Type) : Type := {
  lit : Z -> num;                       (* an integer literal or counter *)
  plus : num -> num -> num;
  minus : num -> num -> num;
  times : num -> num -> num;
  divide : num -> num -> num;
  neg : num -> num;
  lt : num -> num -> bool;
  le : num -> num -> bool;
  Math_log : num -> num;
  Math_exp : num -> num;
  Math_cos : num -> num;
  Math_sin : num -> num;
  Math_sqrt : num -> num;
  Math_abs : num -> num
}.

Declare Scope js_scope.
Delimit Scope js_scope with js.
Infix "+" := plus : js_scope.
Infix "-" := minus : js_scope.
Infix "*" := times : js_scope.
Infix "/" := divide : js_scope.
Notation "- x" := (neg x) : js_scope.
Infix "<?" := lt : js_scope.
Infix "<=?" := le : js_scope.

(** A decimal literal [p/q] of the source ([0.1], [0.2]): the number nearest
    to the quotient, which in binary64 is the correctly rounded division of
    the two integers. *)
Definition dec {num : Type} {N : Number num} (p q : Z) : num :=
  (lit p / lit q)%js.

(** *** The exact-real model *)

Definition Rltb (a b : R) : bool := if Rlt_dec a b then true else false.
Definition Rleb (a b : R) : bool := if Rle_dec a b then true else false.

#[export] Instance Number_R : Number R := {|
  lit := IZR;
  plus := Rplus; minus := Rminus; times := Rmult; divide := Rdiv; neg := Ropp;
  lt := Rltb; le := Rleb;
  Math_log := ln; Math_exp := exp; Math_cos := cos; Math_sin := sin;
  Math_sqrt := R_sqrt.sqrt; Math_abs := Rabs
|}.

(** *** The binary64 model *)

(** The transcendental functions of the host's [Math] object. *)
Class Libm : Type := {
  libm_log : float -> float;
  libm_exp : float -> float;
  libm_cos : float -> float;
  libm_sin : float -> float
}.

(** Integers to binary64 (exact below 2^53). *)
Definition Z2F (z : Z) : float :=
  match z with
  | Z0 => PrimFloat.zero
  | Zpos _ => PrimFloat.of_uint63 (Uint63.of_Z z)
  | Zneg _ => PrimFloat.opp (PrimFloat.of_uint63 (Uint63.of_Z (Z.opp z)))
  end.

#[export] Instance Number_float {m : Libm} : Number float := {|
  lit := Z2F;
  plus := PrimFloat.add; minus := PrimFloat.sub; times := PrimFloat.mul;
  divide := PrimFloat.div; neg := PrimFloat.opp;
  lt := PrimFloat.ltb; le := PrimFloat.leb;
  Math_log := libm_log; Math_exp := libm_exp;
  Math_cos := libm_cos; Math_sin := libm_sin;
  Math_sqrt := PrimFloat.sqrt; Math_abs := PrimFloat.abs
|}.

(** What ECMAScript fixes of these functions at the arguments met below
    (ECMA-262, 21.3.2: [Math.exp(+0)] and [Math.exp(-0)] are 1,
    [Math.cos(+0)] and [Math.cos(-0)] are 1, [Math.sin] returns a zero
    argument unchanged), and that [Math.log(2)] is a positive finite
    number. *)
Record Libm_ok (m : Libm) : Prop := {
  exp_zero : libm_exp 0%float = 1%float;
  exp_neg_zero : libm_exp (-0)%float = 1%float;
  cos_zero : libm_cos 0%float = 1%float;
  cos_neg_zero : libm_cos (-0)%float = 1%float;
  sin_zero : libm_sin 0%float = 0%float;
  sin_neg_zero : libm_sin (-0)%float = (-0)%float;
  log_two_pos : PrimFloat.ltb 0%float (libm_log 2%float) = true;
  log_two_finite : PrimFloat.ltb (libm_log 2%float) infinity = true
}.

(** A small [Math] library, by series after argument reduction.  It is not
    the host's; it makes the binary64 model executable (to about 1e-13 on
    the arguments met here) and shows that the assumptions made on a
    [Libm] can be met. *)
Module Series.
Local Open Scope float_scope.

(** 1 + t/c(k) * (1 + t/c(k+1) * (...)), [n] factors. *)
Fixpoint horner (c : Z -> Z) (n : nat) (k : Z) (t : float) : float :=
  match n with
  | O => 1
  | S n' => 1 + t / Z2F (c k) * horner c n' (k + 1)%Z t
  end.

(** exp a = (exp (a / 2^8))^(2^8). *)
Fixpoint square_times (k : nat) (e : float) : float :=
  match k with
  | O => e
  | S k' => square_times k' (e * e)
  end.

Definition exp (a : float) : float :=
  square_times 8 (horner (fun k => k) 20 1 (a / 256)).

(** cos and sin of b / 2^8 by their series, then eight angle doublings. *)
Definition cos_small (t : float) : float :=
  horner (fun k => (2 * k - 1) * (2 * k))%Z 10 1 (- (t * t)).

Definition sin_small (t : float) : float :=
  t * horner (fun k => (2 * k) * (2 * k + 1))%Z 10 1 (- (t * t)).

Fixpoint double_angle (k : nat) (c s : float) : float * float :=
  match k with
  | O => (c, s)
  | S k' => double_angle k' (c * c - s * s) (2 * s * c)
  end.

Definition cos (b : float) : float :=
  fst (double_angle 8 (cos_small (b / 256)) (sin_small (b / 256))).

Definition sin (b : float) : float :=
  snd (double_angle 8 (cos_small (b / 256)) (sin_small (b / 256))).

(** ln a = 2^8 ln r with r = a^(1/2^8), and ln r = 2 atanh u with
    u = (r - 1)/(r + 1). *)
Fixpoint sqrt_times (k : nat) (a : float) : float :=
  match k with
  | O => a
  | S k' => sqrt_times k' (PrimFloat.sqrt a)
  end.

Fixpoint atanh_series (n : nat) (k : Z) (t : float) : float :=
  match n with
  | O => 0
  | S n' => 1 / Z2F k + t * atanh_series n' (k + 2)%Z t
  end.

Definition log (a : float) : float :=
  let r := sqrt_times 8 a in
  let u := (r - 1) / (r + 1) in
  256 * (2 * u * atanh_series 12 1 (u * u)).

Definition libm : Libm :=
  {| libm_log := log; libm_exp := exp; libm_cos := cos; libm_sin := sin |}.
End Series.

(** The binary64 model with the series library. *)
Definition Number_series : Number float := @Number_float Series.libm.

(** [Math.cos] is even and [Math.sin] is odd, bit for bit (as in the
    fdlibm-derived libraries of the usual hosts; ECMAScript does not
    require it). *)
Record Libm_parity (m : Libm) : Prop := {
  cos_even : forall b : float, libm_cos (- b)%float = libm_cos b;
  sin_odd : forall b : float, libm_sin (- b)%float = (- libm_sin b)%float
}.

(** Equal (NaN included), or both zeros of any sign: the comparison
    SameValueZero of ECMAScript, that is [===] extended to NaN. *)
Definition same_value_zero (a b : float) : Prop :=
  a = b
  \/ (PrimFloat.eqb a 0%float = true /\ PrimFloat.eqb b 0%float = true).

(** The same on the specification of binary64. *)
Definition SF_is_zero (u : spec_float) : Prop :=
  match u with S754_zero _ => True | _ => False end.

Definition SFszeq (u v : spec_float) : Prop :=
  u = v \/ (SF_is_zero u /\ SF_is_zero v).

(** ** The zeta view: [ComplexNumber] and [zeta] *)

Module Zeta.

Section Generic.
Context {num : Type} {N : Number num}.
Local Open Scope js_scope.

Record ComplexNumber : Type := mkComplex { re : num; im : num }.

Definition add (this c : ComplexNumber) : ComplexNumber :=
  mkComplex (re this + re c) (im this + im c).

Definition sub (this c : ComplexNumber) : ComplexNumber :=
  mkComplex (re this - re c) (im this - im c).

Definition multiply (this c : ComplexNumber) : ComplexNumber :=
  mkComplex (re this * re c - im this * im c)
            (re this * im c + im this * re c).

(** [static pow(base, exponent)]: base^exponent = exp(exponent * ln base). *)
Definition pow (base : num) (exponent : ComplexNumber) : ComplexNumber :=
  let lnBase := Math_log base in
  let a := re exponent * lnBase in
  let b := im exponent * lnBase in
  let expA := Math_exp a in
  mkComplex (expA * Math_cos b) (expA * Math_sin b).

(** [inv()]: 1 / C.  No test on [denom]. *)
Definition inv (this : ComplexNumber) : ComplexNumber :=
  let denom := re this * re this + im this * im this in
  mkComplex (re this / denom) (- im this / denom).

(** One pass of the body of [for (let n = 1; n <= terms; n++)]. *)
Definition zeta_step (s : ComplexNumber) (n : Z) (etaSum : ComplexNumber)
  : ComplexNumber :=
  let n_s := pow (lit n) s in
  let term := inv n_s in
  if (Z.rem (n - 1) 2 =? 1)%Z then sub etaSum term else add etaSum term.

(** The loop, from counter [n] with [k] passes left: the counter is an
    integer, so the trip count of [n = 1; n <= terms; n++] is [terms]
    (none when [terms < 1]). *)
Fixpoint zeta_loop (k : nat) (s : ComplexNumber) (n : Z)
  (etaSum : ComplexNumber) : ComplexNumber :=
  match k with
  | O => etaSum
  | S k' => zeta_loop k' s (n + 1)%Z (zeta_step s n etaSum)
  end.

Definition etaSum_of (s : ComplexNumber) (terms : Z) : ComplexNumber :=
  zeta_loop (Z.to_nat terms) s 1%Z (mkComplex (lit 0) (lit 0)).

Definition denominator_of (s : ComplexNumber) : ComplexNumber :=
  let oneMinusS := mkComplex (lit 1 - re s) (- im s) in
  let twoPow := pow (lit 2) oneMinusS in
  sub (mkComplex (lit 1) (lit 0)) twoPow.

Definition zeta (s : ComplexNumber) (terms : Z) : ComplexNumber :=
  let etaSum := etaSum_of s terms in
  let denominator := denominator_of s in
  multiply etaSum (inv denominator).

(** *** The series as the specification words it *)

(** The n-th term of the eta series: inverse(powRealBase(n, s)). *)
Definition eta_term (s : ComplexNumber) (n : Z) : ComplexNumber :=
  inv (pow (lit n) s).

(** Indices 1, 2, ..., terms in increasing order. *)
Definition indices (terms : Z) : list Z :=
  map Z.of_nat (seq 1 (Z.to_nat terms)).

(** Added when [n] is odd, subtracted when [n] is even, from (0,0). *)
Definition eta_partial_sum (s : ComplexNumber) (terms : Z) : ComplexNumber :=
  fold_left
    (fun acc n => if Z.odd n then add acc (eta_term s n)
                  else sub acc (eta_term s n))
    (indices terms) (mkComplex (lit 0) (lit 0)).

Definition zeta_spec (s : ComplexNumber) (terms : Z) : ComplexNumber :=
  multiply (eta_partial_sum s terms)
    (inv (sub (mkComplex (lit 1) (lit 0))
              (pow (lit 2) (mkComplex (lit 1 - re s) (- im s))))).

Definition conj (c : ComplexNumber) : ComplexNumber :=
  mkComplex (re c) (- im c).

End Generic.

Arguments ComplexNumber num : clear implicits.

End Zeta.

(** [c'] is the conjugate of [c] up to the signs of zeros. *)
Definition conj_rel (c' c : Zeta.ComplexNumber float) : Prop :=
  same_value_zero (Zeta.re c') (Zeta.re c)
  /\ same_value_zero (Zeta.im c') (- Zeta.im c)%float.

(** ** The primes view: data generation of [initPrimes] *)

Module Primes.

(** [THREE.Vector3], as far as the data generation uses it. *)
Record Vector3 (num : Type) : Type := mkVector3 { x : num; y : num; z : num }.
Arguments mkVector3 {num} _ _ _.
Arguments x {num} _.
Arguments y {num} _.
Arguments z {num} _.

(** *** Integer part: [isPrime], [primes], [stepPoints] *)

(** The loop of [isPrime], from divisor [i].  The test [i <= Math.sqrt(num)]
    is made in binary64, as in the source; [None] when the fuel runs out. *)
Fixpoint isPrime_loop (fuel : nat) (num i : Z) : option bool :=
  if PrimFloat.leb (Z2F i) (PrimFloat.sqrt (Z2F num)) then
    match fuel with
    | O => None
    | S fuel' =>
        if (Z.rem num i =? 0)%Z then Some false
        else isPrime_loop fuel' num (i + 1)%Z
    end
  else Some true.

Definition isPrime (num : Z) : option bool :=
  if (num <? 2)%Z then Some false
  else isPrime_loop (Z.to_nat num) num 2%Z.

(** [for (let i = 0; i <= maxN; i++) if (isPrime(i)) primes.push(i)],
    from counter [i] with [k] passes left. *)
Fixpoint primes_loop (k : nat) (i : Z) (primes : list Z) : option (list Z) :=
  match k with
  | O => Some primes
  | S k' =>
      match isPrime i with
      | None => None
      | Some b => primes_loop k' (i + 1)%Z (if b then primes ++ [i] else primes)
      end
  end.

Definition primes_of (maxN : Z) : option (list Z) :=
  primes_loop (Z.to_nat (maxN + 1)) 0%Z [].

Definition origin : Vector3 Z := mkVector3 0%Z 0%Z 0%Z.

(** One pass of the loop over [primes] that builds [stepPoints]; the state
    is the array and [count]. *)
Definition step_body (st : list (Vector3 Z) * Z) (p : Z)
  : list (Vector3 Z) * Z :=
  let '(stepPoints, count) := st in
  let lastX := x (last stepPoints origin) in
  let stepPoints :=
    if (p >? lastX)%Z then stepPoints ++ [mkVector3 p count 0%Z]
    else stepPoints in
  let count := (count + 1)%Z in
  (stepPoints ++ [mkVector3 p count 0%Z], count).

Definition stepPoints_of (primes : list Z) (maxN : Z) : list (Vector3 Z) :=
  let '(stepPoints, count) := fold_left step_body primes ([origin], 0%Z) in
  stepPoints ++ [mkVector3 maxN count 0%Z].

(** *** Floating-point part: Li, the waves, the Riemann sum *)

Section Generic.
Context {num : Type} {N : Number num}.
Local Open Scope js_scope.

(** [for (let x = 2; x <= maxN; x += dt)] of section 5, from the state
    [(x, integral, liPoints)]. *)
Fixpoint li_loop (fuel : nat) (maxN dt x integral : num)
  (liPoints : list (Vector3 num)) : option (list (Vector3 num)) :=
  if x <=? maxN then
    match fuel with
    | O => None
    | S fuel' =>
        let mid := x + dt / lit 2 in
        let val := lit 1 / Math_log mid in
        let integral := integral + val * dt in
        li_loop fuel' maxN dt (x + dt) integral
          (liPoints ++ [mkVector3 (x + dt) integral (lit 0)])
    end
  else Some liPoints.

(** Section 5 with its constants [2], [maxN] and [dt] as arguments. *)
Definition liPoints_of (fuel : nat) (from maxN dt : num)
  : option (list (Vector3 num)) :=
  li_loop fuel maxN dt from (lit 0) [mkVector3 from (lit 0) (lit 0)].

(** The ordinate of a wave point (section 6), for one [gamma] of
    [allGammas] at abscissa [x]. *)
Definition waveY (x gamma : num) : num :=
  let amp := Math_sqrt x / Math_abs gamma in
  let phase := gamma * Math_log x in
  - amp * Math_sin phase.

(** [const gammas = [14.13, 21.02, ...]]. *)
Definition gammas : list num :=
  [dec 1413 100; dec 2102 100; dec 2501 100; dec 3042 100; dec 3293 100;
   dec 3758 100; dec 4091 100; dec 4332 100; dec 4800 100; dec 4977 100].

Definition allGammas : list num := gammas ++ map neg gammas.

(** [for (let t = 2; t < x; t += subDt) liVal += (1/Math.log(t)) * subDt]. *)
Fixpoint liVal_loop (fuel : nat) (x subDt t liVal : num) : option num :=
  if t <? x then
    match fuel with
    | O => None
    | S fuel' =>
        liVal_loop fuel' x subDt (t + subDt)
          (liVal + (lit 1 / Math_log t) * subDt)
    end
  else Some liVal.

(** The term of one pair in section 7's [gammas.forEach]. *)
Definition pairWaveY (x gamma : num) : num :=
  let amp := Math_sqrt x / gamma in
  let phase := gamma * Math_log x in
  - lit 2 * amp * Math_sin phase.

Definition correction_of (x : num) (gs : list num) : num :=
  fold_left (fun correction gamma => correction + pairWaveY x gamma)
    gs (lit 0).

(** The body of section 7's loop over [x]: [totalY]. *)
Definition totalY (fuel : nat) (x : num) (gs : list num) : option num :=
  match liVal_loop fuel x (dec 1 10) (lit 2) (lit 0) with
  | None => None
  | Some liVal => Some (liVal + correction_of x gs)
  end.

(** [for (let x = 2; x <= maxN; x += 0.2)] of section 7; every inner loop
    gets the fuel [fuel0]. *)
Fixpoint sum_loop (fuel0 fuel : nat) (maxN x : num) (gs : list num)
  (sumPoints : list (Vector3 num)) : option (list (Vector3 num)) :=
  if x <=? maxN then
    match fuel with
    | O => None
    | S fuel' =>
        match totalY fuel0 x gs with
        | None => None
        | Some t =>
            sum_loop fuel0 fuel' maxN (x + dec 2 10) gs
              (sumPoints ++ [mkVector3 x t (lit 0)])
        end
    end
  else Some sumPoints.

Definition sumPoints_of (fuel : nat) (maxN : num) (gs : list num)
  : option (list (Vector3 num)) :=
  sum_loop fuel fuel maxN (lit 2) gs [].

End Generic.

End Primes.

(** ** Strict equality of numbers *)

(** [===] on numbers, as [Array.prototype.indexOf] uses it: in binary64 the
    IEEE comparison (NaN equals nothing, the two zeros are equal). *)
Class StrictEq (num : Type) : Type := strict_eq : num -> num -> bool.

#[export] Instance StrictEq_R : StrictEq R :=
  fun a b => if Req_dec_T a b then true else false.

#[export] Instance StrictEq_float : StrictEq float := PrimFloat.eqb.

(** ** The primes view, continued: the approximation and the waves *)

Module InitPrimes.
Import Primes.

Section Generic.
Context {num : Type} {N : Number num} {E : StrictEq num}.
Local Open Scope js_scope.

(** [for (let x = 2; x <= maxN; x += 0.5)] of section 4, from the state
    [(x, approxPoints)]. *)
Fixpoint approx_loop (fuel : nat) (maxN x : num)
  (approxPoints : list (Vector3 num)) : option (list (Vector3 num)) :=
  if x <=? maxN then
    match fuel with
    | O => None
    | S fuel' =>
        let y := x / Math_log x in
        approx_loop fuel' maxN (x + dec 5 10)
          (approxPoints ++ [mkVector3 x y (lit 0)])
    end
  else Some approxPoints.

Definition approxPoints_of (fuel : nat) (maxN : num)
  : option (list (Vector3 num)) :=
  approx_loop fuel maxN (lit 2) [].

(** [Array.prototype.indexOf]: the first index whose element is strictly
    equal to [v], or -1. *)
Fixpoint indexOf_from (l : list num) (v : num) (i : Z) : Z :=
  match l with
  | [] => (-1)%Z
  | a :: l' => if strict_eq a v then i else indexOf_from l' v (i + 1)%Z
  end.

Definition indexOf (l : list num) (v : num) : Z := indexOf_from l v 0%Z.

(** Section 6, for one [gamma] of [allGammas]:
    [rank = gammas.indexOf(Math.abs(gamma))], [sign = gamma > 0 ? 1 : -1],
    [zOffset = sign * (rank + 1) * 4]. *)
Definition rank (gs : list num) (gamma : num) : Z :=
  indexOf gs (Math_abs gamma).

Definition sign (gamma : num) : num :=
  if lit 0 <? gamma then lit 1 else - lit 1.

Definition zOffset (gs : list num) (gamma : num) : num :=
  sign gamma * (lit (rank gs gamma) + lit 1) * lit 4.

(** [for (let x = 2; x <= maxN; x += 0.2)] of section 6. *)
Fixpoint wave_loop (fuel : nat) (maxN gamma zOffset x : num)
  (wavePoints : list (Vector3 num)) : option (list (Vector3 num)) :=
  if x <=? maxN then
    match fuel with
    | O => None
    | S fuel' =>
        wave_loop fuel' maxN gamma zOffset (x + dec 2 10)
          (wavePoints ++ [mkVector3 x (waveY x gamma) zOffset])
    end
  else Some wavePoints.

Definition wavePoints_of (fuel : nat) (maxN : num) (gs : list num)
  (gamma : num) : option (list (Vector3 num)) :=
  wave_loop fuel maxN gamma (zOffset gs gamma) (lit 2) [].

End Generic.

End InitPrimes.

(** ** The zeta view, continued: data generation of [initZeta] *)

Module InitZeta.
Import Primes.

Section Generic.
Context {num : Type} {N : Number num}.
Local Open Scope js_scope.

(** [for (let t = -maxT; t <= maxT; t += tStep)] of [createZetaCurve]. *)
Fixpoint curve_loop (fuel : nat) (sigma maxT tStep scale t : num)
  (points : list (Vector3 num)) : option (list (Vector3 num)) :=
  if t <=? maxT then
    match fuel with
    | O => None
    | S fuel' =>
        let s := Zeta.mkComplex sigma t in
        let z := Zeta.zeta s 200 in
        curve_loop fuel' sigma maxT tStep scale (t + tStep)
          (points ++ [mkVector3 (Zeta.re z * scale) t (Zeta.im z * scale)])
    end
  else Some points.

Definition createZetaCurve (fuel : nat) (sigma : num)
  : option (list (Vector3 num)) :=
  let tStep := dec 1 100 in
  let maxT := lit 60 in
  let scale := lit 8 in
  curve_loop fuel sigma maxT tStep scale (- maxT) [].

(** [const primes = [2, 3, 5, 7, 11, 13]]. *)
Definition primes : list Z := [2; 3; 5; 7; 11; 13]%Z.

(** One pass of [primes.forEach] that builds [piPoints]; the state is the
    array and [count].  ([lastX] is read and not used.) *)
Definition pi_body (st : list (Vector3 num) * Z) (p : Z)
  : list (Vector3 num) * Z :=
  let '(piPoints, count) := st in
  let x := (lit p - dec 5 10) * lit 8 in
  let lastY := y (last piPoints (mkVector3 (lit 0) (lit 0) (lit 0))) in
  let piPoints := piPoints ++ [mkVector3 x lastY (lit 0)] in
  let count := (count + 1)%Z in
  (piPoints ++ [mkVector3 x (lit count * lit 2) (lit 0)], count).

Definition piPoints_of (primes : list Z) : list (Vector3 num) :=
  fst (fold_left pi_body primes ([mkVector3 (lit 0) (lit 0) (lit 0)], 0%Z)).

(** [for (let x = 2; x <= 13; x += dt)] of the Li curve, in world
    coordinates. *)
Fixpoint li_loop (fuel : nat) (maxN dt x integral : num)
  (liPoints : list (Vector3 num)) : option (list (Vector3 num)) :=
  if x <=? maxN then
    match fuel with
    | O => None
    | S fuel' =>
        let mid := x + dt / lit 2 in
        let val := lit 1 / Math_log mid in
        let integral := integral + val * dt in
        let worldX := ((x + dt) - dec 5 10) * lit 8 in
        let worldY := integral * lit 2 in
        li_loop fuel' maxN dt (x + dt) integral
          (liPoints ++ [mkVector3 worldX worldY (lit 0)])
    end
  else Some liPoints.

Definition liPoints_of (fuel : nat) : option (list (Vector3 num)) :=
  let dt := dec 1 10 in
  let startX := (lit 2 - dec 5 10) * lit 8 in
  li_loop fuel (lit 13) dt (lit 2) (lit 0)
    [mkVector3 startX (lit 0) (lit 0)].

(** [for (let x = 2; x <= 13; x += 0.1)] of the curve x / ln x, in world
    coordinates. *)
Fixpoint approx_loop (fuel : nat) (maxN x : num)
  (approxPoints : list (Vector3 num)) : option (list (Vector3 num)) :=
  if x <=? maxN then
    match fuel with
    | O => None
    | S fuel' =>
        let y := x / Math_log x in
        let worldX := (x - dec 5 10) * lit 8 in
        let worldY := y * lit 2 in
        approx_loop fuel' maxN (x + dec 1 10)
          (approxPoints ++ [mkVector3 worldX worldY (lit 0)])
    end
  else Some approxPoints.

Definition approxPoints_of (fuel : nat) : option (list (Vector3 num)) :=
  let startX := (lit 2 - dec 5 10) * lit 8 in
  approx_loop fuel (lit 13) (lit 2)
    [mkVector3 startX (lit 2 / Math_log (lit 2) * lit 2) (lit 0)].

End Generic.

End InitZeta.

(** ** Notions used to state the properties *)

(** The integers lo, lo + 1, ..., lo + len - 1. *)
Definition Zrange (lo : Z) (len : nat) : list Z :=
  map (fun k => (lo + Z.of_nat k)%Z) (seq 0 len).

(** Primality decided naively: n >= 2 and no d in 2 .. n-1 divides n. *)
Definition primeb (n : Z) : bool :=
  (2 <=? n)%Z
  && forallb (fun d => negb (n mod d =? 0)%Z) (Zrange 2 (Z.to_nat (n - 2))).

(** Trial division by every integer from 2 to floor(sqrt n). *)
Definition trial_division (n : Z) : bool :=
  forallb (fun i => negb (Z.rem n i =? 0)%Z)
          (Zrange 2 (Z.to_nat (Z.sqrt n - 1))).

(** [isPrime n] returns, and returns what both decisions above say. *)
Definition isPrime_agrees (n : Z) : bool :=
  match Primes.isPrime n with
  | Some b =>
      Bool.eqb b (primeb n)
      && (if (n <? 2)%Z then negb b else Bool.eqb b (trial_division n))
  | None => false
  end.

(** The primes up to 30. *)
Definition primes30 : list Z := [2; 3; 5; 7; 11; 13; 17; 19; 23; 29]%Z.

(** Order on step points: neither coordinate decreases. *)
Definition step_le (a b : Primes.Vector3 Z) : Prop :=
  (Primes.x a <= Primes.x b /\ Primes.y a <= Primes.y b)%Z.

(** The loop invariant of the step construction: the array starts at the
    origin, ends at [(lx, count)], is ordered, and stays below its last
    point, which is not beyond [maxN]. *)
Record step_inv (maxN : Z) (pts : list (Primes.Vector3 Z)) (count lx : Z)
  : Prop := {
  inv_head : exists rest, pts = Primes.origin :: rest;
  inv_last : last pts Primes.origin = Primes.mkVector3 lx count 0%Z;
  inv_sorted : StronglySorted step_le pts;
  inv_dom : Forall (fun q => (Primes.x q <= lx /\ Primes.y q <= count)%Z) pts;
  inv_bound : (lx <= maxN)%Z
}.



(** The alternating sum of 1/j^2 for j = n, ..., n + k - 1, as a rational. *)
Fixpoint alt_sum (k : nat) (n : Z) : Q :=
  match k with
  | O => 0%Q
  | S k' =>
      Qplus (Qmake (if Z.odd n then 1 else -1) (Z.to_pos (n * n)))
            (alt_sum k' (n + 1)%Z)
  end.

(** The values [x] takes in [for (let x = x0; x <= bound; x += step)]. *)
Fixpoint abscissae {num : Type} {N : Number num} (fuel : nat)
  (bound step x : num) : option (list num) :=
  if (x <=? bound)%js then
    match fuel with
    | O => None
    | S fuel' => option_map (cons x) (abscissae fuel' bound step (x + step)%js)
    end
  else Some [].

(** The values [t] takes in [for (let t = t0; t < bound; t += step)]. *)
Fixpoint abscissae_lt {num : Type} {N : Number num} (fuel : nat)
  (bound step t : num) : option (list num) :=
  if (t <? bound)%js then
    match fuel with
    | O => None
    | S fuel' =>
        option_map (cons t) (abscissae_lt fuel' bound step (t + step)%js)
    end
  else Some [].

(** The run did not stop for lack of fuel. *)
Definition returns {A : Type} (o : option A) : bool :=
  match o with Some _ => true | None => false end.

(** In exact arithmetic, [K] is the number of passes of
    [for (x = x0; x <= bound; x += step)]. *)
Definition passes (x0 bound step : R) (K : nat) : Prop :=
  (forall k, (k < K)%nat -> x0 + INR k * step <= bound)%R
  /\ (bound < x0 + INR K * step)%R.

(** Neither an infinity nor NaN. *)
Definition is_finite (a : float) : bool :=
  PrimFloat.ltb (PrimFloat.abs a) infinity.

(** The two points of the step at the [k]-th prime [p] (from 0). *)
Definition step_at (kp : Z * Z) : list (Primes.Vector3 Z) :=
  let '(k, p) := kp in
  [Primes.mkVector3 p k 0%Z; Primes.mkVector3 p (k + 1)%Z 0%Z].

(** Mirror image through the x axis. *)
Definition mirror {num : Type} {N : Number num} (v : Primes.Vector3 num)
  : Primes.Vector3 num :=
  Primes.mkVector3 (Primes.x v) (- Primes.y v)%js (- Primes.z v)%js.

(** World coordinates of the zeta view: 8 units per unit of x, from
    x = 0.5, and 2 units per unit of y. *)
Definition world {num : Type} {N : Number num} (v : Primes.Vector3 num)
  : Primes.Vector3 num :=
  Primes.mkVector3 ((Primes.x v - dec 5 10) * lit 8)%js
                   (Primes.y v * lit 2)%js (lit 0).

(** An integer point in world coordinates. *)
Definition worldZ {num : Type} {N : Number num} (v : Primes.Vector3 Z)
  : Primes.Vector3 num :=
  world (Primes.mkVector3 (lit (Primes.x v)) (lit (Primes.y v)) (lit 0)).

(** The ordinates of the zeta curve in binary64: 12001 of them, from -60,
    each within 2^-36 of -60 + k/100, none equal to 0, the last below 60. *)
Definition t_grid_ok (ts : list float) : bool :=
  (Z.of_nat (length ts) =? 12001)%Z
  && PrimFloat.eqb (hd 0%float ts) (-60)%float
  && PrimFloat.ltb (last ts 0%float) 60%float
  && forallb (fun t => negb (PrimFloat.eqb t 0%float)) ts
  && forallb
       (fun kt =>
          PrimFloat.ltb
            (PrimFloat.abs (snd kt - Z2F (fst kt - 6000) / 100)%float)
            0x1p-36%float)
       (combine (Zrange 0 (length ts)) ts).

(** The abscissae, in binary64, of a loop that steps by 0.2 from 2 to 100:
    490 of them, from 2, each within 2^-40 of 2 + k/5, the last below
    99.81. *)
Definition x_grid_ok (xs : list float) : bool :=
  (length xs =? 490)%nat
  && PrimFloat.eqb (hd 0%float xs) 2%float
  && PrimFloat.ltb (last xs 0%float) (Z2F 9981 / 100)%float
  && forallb
       (fun kx =>
          PrimFloat.ltb
            (PrimFloat.abs (snd kx - Z2F (10 + fst kx) / 5)%float)
            0x1p-40%float)
       (combine (Zrange 0 (length xs)) xs).

(** The abscissae, in binary64, of the loop that steps by 0.5 from 2 to
    100: exactly the 197 halves 2, 2.5, ..., 100. *)
Definition half_grid_ok (xs : list float) : bool :=
  (length xs =? 197)%nat
  && PrimFloat.eqb (last xs 0%float) 100%float
  && forallb
       (fun kx => PrimFloat.eqb (snd kx) (Z2F (4 + fst kx) / 2)%float)
       (combine (Zrange 0 (length xs)) xs).

(** The abscissae, in binary64, of the Li curve from 2 to 100 by 0.1: 982
    of them, from 2, each within 2^-39 of 2 + k/10, the last between 100
    and 100.1. *)
Definition li_grid_ok (xs : list float) : bool :=
  (length xs =? 982)%nat
  && PrimFloat.eqb (hd 0%float xs) 2%float
  && PrimFloat.ltb 100%float (last xs 0%float)
  && PrimFloat.ltb (last xs 0%float) (Z2F 1001 / 10)%float
  && forallb
       (fun kx =>
          PrimFloat.ltb
            (PrimFloat.abs (snd kx - Z2F (20 + fst kx) / 10)%float)
            0x1p-39%float)
       (combine (Zrange 0 (length xs)) xs).

(** The values [t] of the inner loop of section 7 at each abscissa of [xs]:
    [for (let t = 2; t < x; t += 0.1)]. *)
Fixpoint inner_visits {num : Type} {N : Number num} (fuel : nat)
  (xs : list num) : option (list (list num)) :=
  match xs with
  | [] => Some []
  | x :: xs' =>
      match abscissae_lt fuel x (dec 1 10) (lit 2), inner_visits fuel xs' with
      | Some ts, Some tss => Some (ts :: tss)
      | _, _ => None
      end
  end.





(** The midpoint rectangles (1 / ln (t + dt/2)) * dt at the values [ts] of
    the loop variable, added to 0 in the order of the list. *)
Definition midpoint_rule {num : Type} {N : Number num} (dt : num)
  (ts : list num) : num :=
  fold_left
    (fun integral t => (integral + lit 1 / Math_log (t + dt / lit 2) * dt)%js)
    ts (lit 0).

(** Each number is below the next (binary64). *)
Fixpoint strictly_increasingb (xs : list float) : bool :=
  match xs with
  | a :: (b :: _) as rest => PrimFloat.ltb a b && strictly_increasingb rest
  | _ => true
  end.


(** Class projections of the exact-real model, reduced to the operations
    of [R]. *)
Ltac js_R :=
  cbn [lit plus minus times divide neg lt le Math_log Math_exp Math_cos
       Math_sin Math_sqrt Math_abs Number_R dec] in *.

(** * Properties *)

(** ** The eta series, in every model *)

Section ZetaGeneric.
Context {num : Type} {N : Number num}.
Import Zeta.

(** The parity test of the loop, for a counter from 1. *)
Lemma sign_test (n : Z) :
  (1 <= n)%Z -> (Z.rem (n - 1) 2 =? 1)%Z = negb (Z.odd n).
Proof.
  intros Hn.
  rewrite Z.rem_mod_nonneg by lia.
  rewrite Zmod_odd, Z.sub_1_r, Z.odd_pred, <- Z.negb_odd.
  destruct (Z.odd n); reflexivity.
Qed.

Lemma zeta_step_spec (s : ComplexNumber num) (n : Z)
  (acc : ComplexNumber num) :
  (1 <= n)%Z ->
  zeta_step s n acc =
  if Z.odd n then add acc (eta_term s n) else sub acc (eta_term s n).
Proof.
  intros Hn. unfold zeta_step, eta_term.
  rewrite sign_test by assumption.
  destruct (Z.odd n); reflexivity.
Qed.

Lemma zeta_loop_fold (s : ComplexNumber num) (k : nat) :
  forall (n : nat) (acc : ComplexNumber num),
    (1 <= n)%nat ->
    zeta_loop k s (Z.of_nat n) acc =
    fold_left
      (fun acc n => if Z.odd n then add acc (eta_term s n)
                    else sub acc (eta_term s n))
      (map Z.of_nat (seq n k)) acc.
Proof.
  induction k as [|k IH]; intros n acc Hn; simpl.
  - reflexivity.
  - rewrite zeta_step_spec by lia.
    replace (Z.of_nat n + 1)%Z with (Z.of_nat (S n)) by lia.
    apply IH. lia.
Qed.

(** C1.  For every complex [s] and every number of terms (in particular
    every [terms >= 1]), [zeta s terms] is the alternating partial sum of
    the terms inverse(pow(n, s)), n = 1 .. terms, each added when n is odd
    and subtracted when n is even, accumulated in increasing order from
    (0,0), multiplied by the inverse of (1,0) - pow(2, (1 - s.re, -s.im)).
    It holds in every model of the numbers. *)
Theorem zeta_is_eta_over_denominator (s : ComplexNumber num) (terms : Z) :
  zeta s terms = zeta_spec s terms.
Proof.
  unfold zeta, zeta_spec, etaSum_of, denominator_of, eta_partial_sum, indices.
  f_equal.
  apply (zeta_loop_fold s (Z.to_nat terms) 1 _). lia.
Qed.

End ZetaGeneric.

(** ** Division by zero, in binary64 *)

Section Binary64.
Context {m : Libm}.
Import Zeta.
Local Open Scope float_scope.

(** NaN absorbs a product. *)
Lemma mul_nan_r (a : float) : a * nan = nan.
Proof.
  apply Prim2SF_inj. rewrite mul_spec.
  change (Prim2SF nan) with S754_nan.
  destruct (Prim2SF a); reflexivity.
Qed.

(** A zero times a positive finite number is that zero. *)
Lemma mul_zero_l (sg : bool) (b : float) :
  (0 <? b) = true -> (b <? infinity) = true ->
  (if sg then -0 else 0) * b = (if sg then -0 else 0).
Proof.
  rewrite !ltb_spec. intros Hpos Hfin.
  apply Prim2SF_inj. rewrite mul_spec.
  change (Prim2SF 0) with (S754_zero false) in *.
  change (Prim2SF infinity) with (S754_infinity false) in *.
  destruct (Prim2SF b) as [s|s| |s mb eb]; try discriminate.
  - destruct s; discriminate.
  - destruct s; [discriminate|].
    destruct sg; reflexivity.
Qed.

(** C6.  For every complex [a], [inv a] is the pair
    (a.re / d, -a.im / d) with d = a.re^2 + a.im^2, computed without any
    test on [a]; when [a] is a zero complex value (whatever the signs of
    its zeros) both components of the result are NaN. *)
Theorem inv_unguarded_nan_at_zero :
  (forall a : ComplexNumber float,
      inv a = mkComplex (re a / (re a * re a + im a * im a))
                        (- im a / (re a * re a + im a * im a)))
  /\ inv (mkComplex 0 0) = mkComplex nan nan
  /\ inv (mkComplex 0 (-0)) = mkComplex nan nan
  /\ inv (mkComplex (-0) 0) = mkComplex nan nan
  /\ inv (mkComplex (-0) (-0)) = mkComplex nan nan.
Proof.
  split; [intros a; reflexivity|].
  split; [|split; [|split]]; vm_compute; reflexivity.
Qed.

Hypothesis Hm : Libm_ok m.

(** 2^(0 - 0i) is (1, -0). *)
Lemma pow_two_at_zero : pow 2 (mkComplex 0 (-0)) = mkComplex 1 (-0).
Proof.
  unfold pow;
    cbn [re im Math_log Math_exp Math_cos Math_sin times Number_float].
  rewrite (mul_zero_l false), (mul_zero_l true) by apply Hm.
  rewrite (exp_zero m Hm), (cos_neg_zero m Hm), (sin_neg_zero m Hm).
  reflexivity.
Qed.

Lemma denominator_at_one : denominator_of (mkComplex 1 0) = mkComplex 0 0.
Proof.
  unfold denominator_of.
  change (mkComplex (minus (lit 1) (re (mkComplex 1 0)))
                    (neg (im (mkComplex 1 0))))
    with (mkComplex 0 (-0)).
  change (lit 2) with 2.
  rewrite pow_two_at_zero. reflexivity.
Qed.

(** C5.  For every number of terms (in particular every [terms >= 1]), at
    s = (1, 0) the denominator 1 - 2^(1-s) is the zero complex value, its
    inverse is (NaN, NaN), and [zeta] returns the complex value whose real
    and imaginary components are both NaN: the degeneracy reaches the
    result through the arithmetic, as an ordinary [ComplexNumber]. *)
Theorem zeta_at_one_is_nan (terms : Z) :
  denominator_of (mkComplex 1 0) = mkComplex 0 0
  /\ inv (denominator_of (mkComplex 1 0)) = mkComplex nan nan
  /\ zeta (mkComplex 1 0) terms = mkComplex nan nan.
Proof.
  split; [apply denominator_at_one|]. split.
  - rewrite denominator_at_one. reflexivity.
  - unfold zeta. rewrite denominator_at_one.
    change (inv (mkComplex 0 0)) with (mkComplex nan nan).
    unfold multiply; cbn [re im times minus plus Number_float].
    rewrite !mul_nan_r. reflexivity.
Qed.

End Binary64.

(** C5 at the series library, with 200 terms. *)
Lemma zeta_at_one_is_nan_witness :
  Zeta.denominator_of (N := Number_series)
    (Zeta.mkComplex 1%float 0%float) = Zeta.mkComplex 0%float 0%float
  /\ Zeta.inv (N := Number_series)
       (Zeta.denominator_of (N := Number_series)
          (Zeta.mkComplex 1%float 0%float)) = Zeta.mkComplex nan nan
  /\ Zeta.zeta (N := Number_series)
       (Zeta.mkComplex 1%float 0%float) 200 = Zeta.mkComplex nan nan.
Proof.
  apply (@zeta_at_one_is_nan Series.libm).
  constructor; vm_compute; reflexivity.
Defined.

(** ** The models run

    The integer part and, with the series library, the binary64 part
    evaluate.  The values below are what the embedding computes with that
    library; the host's [Math] functions may differ in the last digits. *)

Example primes_of_100 :
  Primes.primes_of 100 =
  Some [2; 3; 5; 7; 11; 13; 17; 19; 23; 29; 31; 37; 41; 43; 47; 53; 59; 61;
        67; 71; 73; 79; 83; 89; 97]%Z.
Proof. vm_compute. reflexivity. Qed.

Section Runs.
#[local] Existing Instance Series.libm.
Import Zeta Primes.
Local Open Scope float_scope.

(** Near the first non-trivial zero the value is near (0,0). *)
Example zeta_near_first_zero_binary64 :
  let z := zeta (mkComplex (dec 1 2) (dec 14134725 1000000)) 200 in
  (abs (re z) <? dec 3 100) && (abs (im z) <? dec 3 100) = true.
Proof. vm_compute. reflexivity. Qed.

(** The wave terms of 14.13 and -14.13 at x = 2 sum to 0; the paired
    correction is positive. *)
Example wave_pair_binary64 :
  waveY 2 (dec 1413 100) + waveY 2 (- dec 1413 100)%js = 0
  /\ (0 <? pairWaveY 2 (dec 1413 100)) = true.
Proof. split; vm_compute; reflexivity. Qed.



End Runs.

(** ** Signs in binary64

    Rounding to nearest is symmetric: changing the signs of the operands
    changes the sign of a product or quotient and, up to the sign of a
    zero result, of a sum or difference. *)

Section SpecFloatSymmetry.

Lemma SFszeq_refl u : SFszeq u u.
Proof. left; reflexivity. Qed.

Lemma SFszeq_sym u v : SFszeq u v -> SFszeq v u.
Proof. intros [->|[? ?]]; [left; reflexivity|right; split; assumption]. Qed.

Lemma SFszeq_trans u v w : SFszeq u v -> SFszeq v w -> SFszeq u w.
Proof.
  intros [->|[Hu Hv]] [<-|[Hv' Hw]]; try (left; reflexivity);
    right; split; assumption.
Qed.

Lemma SFszeq_zero s s' : SFszeq (S754_zero s) (S754_zero s').
Proof. right; split; exact I. Qed.

Ltac szeq_cases H :=
  destruct H as [->|[Hz1 Hz2]]; [apply SFszeq_refl|].

Lemma binary_round_aux_opp prec emax s mx ex lx :
  binary_round_aux prec emax (negb s) mx ex lx =
  SFopp (binary_round_aux prec emax s mx ex lx).
Proof.
  unfold binary_round_aux.
  destruct (shr_fexp prec emax mx ex lx) as [mrs' e'].
  destruct (shr_fexp prec emax _ e' loc_Exact) as [mrs'' e''].
  destruct (shr_m mrs''); try reflexivity.
  destruct (Z.leb _ _); reflexivity.
Qed.

Lemma binary_round_opp prec emax s mx ex :
  binary_round prec emax (negb s) mx ex =
  SFopp (binary_round prec emax s mx ex).
Proof.
  unfold binary_round.
  destruct (shl_align mx ex _) as [mz ez].
  apply binary_round_aux_opp.
Qed.

Lemma binary_normalize_opp prec emax z e :
  SFszeq (binary_normalize prec emax (- z) e false)
         (SFopp (binary_normalize prec emax z e false)).
Proof.
  destruct z; simpl.
  - apply SFszeq_zero.
  - left. apply (binary_round_opp prec emax false).
  - left. apply (binary_round_opp prec emax true).
Qed.

Lemma SFopp_involutive u : SFopp (SFopp u) = u.
Proof. destruct u; simpl; rewrite ?negb_involutive; reflexivity. Qed.

Lemma SFopp_congr u v : SFszeq u v -> SFszeq (SFopp u) (SFopp v).
Proof.
  intros H; szeq_cases H.
  destruct u, v; try contradiction. apply SFszeq_zero.
Qed.

Lemma SFmul_opp_l prec emax u v :
  SFmul prec emax (SFopp u) v = SFopp (SFmul prec emax u v).
Proof.
  destruct u as [s|s| |s mu eu], v as [t|t| |t mv ev]; simpl;
    rewrite <- ?negb_xorb_l; try reflexivity.
  apply binary_round_aux_opp.
Qed.

Lemma SFmul_opp_r prec emax u v :
  SFmul prec emax u (SFopp v) = SFopp (SFmul prec emax u v).
Proof.
  destruct u as [s|s| |s mu eu], v as [t|t| |t mv ev]; simpl;
    rewrite <- ?negb_xorb_r; try reflexivity.
  apply binary_round_aux_opp.
Qed.

Lemma SFdiv_opp_l prec emax u v :
  SFdiv prec emax (SFopp u) v = SFopp (SFdiv prec emax u v).
Proof.
  destruct u as [s|s| |s mu eu], v as [t|t| |t mv ev]; simpl;
    rewrite <- ?negb_xorb_l; try reflexivity.
  destruct (SFdiv_core_binary prec emax _ _ _ _) as [[mz ez] lz].
  apply binary_round_aux_opp.
Qed.

Lemma SFmul_congr_l prec emax u u' v :
  SFszeq u u' -> SFszeq (SFmul prec emax u v) (SFmul prec emax u' v).
Proof.
  intros H; szeq_cases H.
  destruct u, u'; try contradiction.
  destruct v; simpl; try apply SFszeq_zero; apply SFszeq_refl.
Qed.

Lemma SFmul_congr_r prec emax u v v' :
  SFszeq v v' -> SFszeq (SFmul prec emax u v) (SFmul prec emax u v').
Proof.
  intros H; szeq_cases H.
  destruct v, v'; try contradiction.
  destruct u; simpl; try apply SFszeq_zero; apply SFszeq_refl.
Qed.

Lemma SFdiv_congr_l prec emax u u' v :
  SFszeq u u' -> SFszeq (SFdiv prec emax u v) (SFdiv prec emax u' v).
Proof.
  intros H; szeq_cases H.
  destruct u, u'; try contradiction.
  destruct v; simpl; try apply SFszeq_zero; apply SFszeq_refl.
Qed.

Lemma SFadd_congr_l prec emax u u' v :
  SFszeq u u' -> SFszeq (SFadd prec emax u v) (SFadd prec emax u' v).
Proof.
  intros H; szeq_cases H.
  destruct u as [s| | |], u' as [s'| | |]; try contradiction.
  destruct v as [t|t| |t mv ev]; simpl; try apply SFszeq_refl.
  destruct s, s', t; apply SFszeq_zero.
Qed.

Lemma SFadd_congr_r prec emax u v v' :
  SFszeq v v' -> SFszeq (SFadd prec emax u v) (SFadd prec emax u v').
Proof.
  intros H; szeq_cases H.
  destruct v as [s| | |], v' as [s'| | |]; try contradiction.
  destruct u as [t|t| |t mv ev]; simpl; try apply SFszeq_refl.
  destruct s, s', t; apply SFszeq_zero.
Qed.

Lemma SFsub_congr_l prec emax u u' v :
  SFszeq u u' -> SFszeq (SFsub prec emax u v) (SFsub prec emax u' v).
Proof.
  intros H; szeq_cases H.
  destruct u as [s| | |], u' as [s'| | |]; try contradiction.
  destruct v as [t|t| |t mv ev]; simpl; try apply SFszeq_refl.
  destruct s, s', t; apply SFszeq_zero.
Qed.

Lemma SFsub_congr_r prec emax u v v' :
  SFszeq v v' -> SFszeq (SFsub prec emax u v) (SFsub prec emax u v').
Proof.
  intros H; szeq_cases H.
  destruct v as [s| | |], v' as [s'| | |]; try contradiction.
  destruct u as [t|t| |t mv ev]; simpl; try apply SFszeq_refl.
  destruct s, s', t; apply SFszeq_zero.
Qed.

Lemma cond_Zopp_negb s z : cond_Zopp (negb s) z = (- cond_Zopp s z)%Z.
Proof. destruct s; simpl; lia. Qed.

Lemma SFadd_opp prec emax u v :
  SFszeq (SFadd prec emax (SFopp u) (SFopp v)) (SFopp (SFadd prec emax u v)).
Proof.
  destruct u as [s|s| |s mu eu], v as [t|t| |t mv ev];
    try (destruct s, t; simpl; first [apply SFszeq_refl | apply SFszeq_zero]);
    try (destruct s; simpl; apply SFszeq_refl);
    try (destruct t; simpl; apply SFszeq_refl);
    try (simpl; apply SFszeq_refl).
  cbn [SFadd SFopp]. rewrite !cond_Zopp_negb, <- Z.opp_add_distr.
  apply binary_normalize_opp.
Qed.

Lemma SFsub_opp prec emax u v :
  SFszeq (SFsub prec emax (SFopp u) (SFopp v)) (SFopp (SFsub prec emax u v)).
Proof.
  destruct u as [s|s| |s mu eu], v as [t|t| |t mv ev];
    try (destruct s, t; simpl; first [apply SFszeq_refl | apply SFszeq_zero]);
    try (destruct s; simpl; apply SFszeq_refl);
    try (destruct t; simpl; apply SFszeq_refl);
    try (simpl; apply SFszeq_refl).
  cbn [SFsub SFopp]. rewrite !cond_Zopp_negb.
  replace (- cond_Zopp s (Z.pos (fst (shl_align mu eu (Z.min eu ev))))
           - - cond_Zopp t (Z.pos (fst (shl_align mv ev (Z.min eu ev)))))%Z
    with (- (cond_Zopp s (Z.pos (fst (shl_align mu eu (Z.min eu ev))))
             - cond_Zopp t (Z.pos (fst (shl_align mv ev (Z.min eu ev))))))%Z
    by lia.
  apply binary_normalize_opp.
Qed.

(** The square of a number does not see its sign, zeros included. *)
Lemma SFmul_square prec emax u v :
  SFszeq u (SFopp v) -> SFmul prec emax u u = SFmul prec emax v v.
Proof.
  intros [->|[Hz1 Hz2]].
  - rewrite SFmul_opp_l, SFmul_opp_r, SFopp_involutive. reflexivity.
  - destruct u as [s| | |], v as [t| | |]; try contradiction.
    destruct s, t; reflexivity.
Qed.

End SpecFloatSymmetry.

(** The same on primitive floats. *)

Section FloatSymmetry.
Local Open Scope float_scope.

Lemma eqb_zero_spec (a : float) :
  (a =? 0) = true <-> SF_is_zero (Prim2SF a).
Proof.
  rewrite FloatAxioms.eqb_spec. change (Prim2SF 0) with (S754_zero false).
  unfold SFeqb. destruct (Prim2SF a) as [s|s| |s ma ea]; simpl.
  - split; [intros; exact I|reflexivity].
  - destruct s; split; (discriminate || contradiction).
  - split; (discriminate || contradiction).
  - destruct s; split; (discriminate || contradiction).
Qed.

Lemma svz_spec (a b : float) :
  same_value_zero a b <-> SFszeq (Prim2SF a) (Prim2SF b).
Proof.
  unfold same_value_zero, SFszeq. rewrite !eqb_zero_spec. split.
  - intros [->|H]; [left; reflexivity|right; exact H].
  - intros [H|H]; [left; apply Prim2SF_inj; exact H|right; exact H].
Qed.

Lemma svz_refl a : same_value_zero a a.
Proof. left; reflexivity. Qed.

Lemma svz_trans a b c :
  same_value_zero a b -> same_value_zero b c -> same_value_zero a c.
Proof. rewrite !svz_spec. apply SFszeq_trans. Qed.

Lemma svz_zeros : same_value_zero 0 (- 0).
Proof. right; split; reflexivity. Qed.

Lemma opp_opp a : - - a = a.
Proof. apply Prim2SF_inj. rewrite !opp_spec. apply SFopp_involutive. Qed.

Lemma mul_opp_l a b : - a * b = - (a * b).
Proof.
  apply Prim2SF_inj. rewrite opp_spec, !mul_spec, opp_spec.
  apply SFmul_opp_l.
Qed.

Lemma mul_opp_r a b : a * - b = - (a * b).
Proof.
  apply Prim2SF_inj. rewrite opp_spec, !mul_spec, opp_spec.
  apply SFmul_opp_r.
Qed.

Lemma div_opp_l a b : - a / b = - (a / b).
Proof.
  apply Prim2SF_inj. rewrite opp_spec, !div_spec, opp_spec.
  apply SFdiv_opp_l.
Qed.

Lemma mul_square_opp a b : same_value_zero a (- b) -> a * a = b * b.
Proof.
  rewrite svz_spec, opp_spec. intros H.
  apply Prim2SF_inj. rewrite !mul_spec. apply SFmul_square. exact H.
Qed.

Lemma mul_square a b : same_value_zero a b -> a * a = b * b.
Proof.
  intros H. rewrite (mul_square_opp a (- b)).
  - rewrite mul_opp_l, mul_opp_r. apply opp_opp.
  - rewrite opp_opp. exact H.
Qed.

Lemma opp_congr a a' : same_value_zero a a' -> same_value_zero (- a) (- a').
Proof. rewrite !svz_spec, !opp_spec. apply SFopp_congr. Qed.

Lemma mul_congr a a' b b' :
  same_value_zero a a' -> same_value_zero b b' ->
  same_value_zero (a * b) (a' * b').
Proof.
  rewrite !svz_spec, !mul_spec. intros Ha Hb.
  eapply SFszeq_trans; [apply SFmul_congr_l; exact Ha|].
  apply SFmul_congr_r; exact Hb.
Qed.

Lemma div_congr_l a a' b :
  same_value_zero a a' -> same_value_zero (a / b) (a' / b).
Proof. rewrite !svz_spec, !div_spec. apply SFdiv_congr_l. Qed.

Lemma add_congr a a' b b' :
  same_value_zero a a' -> same_value_zero b b' ->
  same_value_zero (a + b) (a' + b').
Proof.
  rewrite !svz_spec, !add_spec. intros Ha Hb.
  eapply SFszeq_trans; [apply SFadd_congr_l; exact Ha|].
  apply SFadd_congr_r; exact Hb.
Qed.

Lemma sub_congr a a' b b' :
  same_value_zero a a' -> same_value_zero b b' ->
  same_value_zero (a - b) (a' - b').
Proof.
  rewrite !svz_spec, !sub_spec. intros Ha Hb.
  eapply SFszeq_trans; [apply SFsub_congr_l; exact Ha|].
  apply SFsub_congr_r; exact Hb.
Qed.

Lemma add_opp a b : same_value_zero (- a + - b) (- (a + b)).
Proof. rewrite svz_spec, opp_spec, !add_spec, !opp_spec. apply SFadd_opp. Qed.

Lemma sub_opp a b : same_value_zero (- a - - b) (- (a - b)).
Proof. rewrite svz_spec, opp_spec, !sub_spec, !opp_spec. apply SFsub_opp. Qed.

End FloatSymmetry.

(** *** Conjugate symmetry of [zeta] in binary64 *)

Section ZetaConjugateBinary64.
Context {m : Libm}.
Hypothesis Hpar : Libm_parity m.
Import Zeta.
Local Open Scope float_scope.

Ltac js_F :=
  cbn [lit plus minus times divide neg Math_log Math_exp Math_cos Math_sin
       Number_float re im] in *.

Lemma conj_rel_conj (c : ComplexNumber float) : conj_rel (conj c) c.
Proof. split; apply svz_refl. Qed.

Lemma pow_conj (base : float) (e : ComplexNumber float) :
  pow base (conj e) = conj (pow base e).
Proof.
  unfold pow, conj; js_F.
  rewrite mul_opp_l, (cos_even m Hpar), (sin_odd m Hpar), mul_opp_r.
  reflexivity.
Qed.

Lemma inv_conj_rel (c' c : ComplexNumber float) :
  conj_rel c' c -> conj_rel (inv c') (inv c).
Proof.
  intros [Hre Him]. unfold inv, conj_rel; js_F.
  rewrite (mul_square _ _ Hre), (mul_square_opp _ _ Him).
  split.
  - apply div_congr_l; exact Hre.
  - rewrite <- div_opp_l. apply div_congr_l, opp_congr. exact Him.
Qed.

Lemma add_conj_rel (a' a b' b : ComplexNumber float) :
  conj_rel a' a -> conj_rel b' b -> conj_rel (add a' b') (add a b).
Proof.
  intros [Har Hai] [Hbr Hbi]. unfold add, conj_rel; js_F. split.
  - apply add_congr; assumption.
  - eapply svz_trans; [apply add_congr; eassumption|apply add_opp].
Qed.

Lemma sub_conj_rel (a' a b' b : ComplexNumber float) :
  conj_rel a' a -> conj_rel b' b -> conj_rel (sub a' b') (sub a b).
Proof.
  intros [Har Hai] [Hbr Hbi]. unfold sub, conj_rel; js_F. split.
  - apply sub_congr; assumption.
  - eapply svz_trans; [apply sub_congr; eassumption|apply sub_opp].
Qed.

Lemma multiply_conj_rel (a' a b' b : ComplexNumber float) :
  conj_rel a' a -> conj_rel b' b ->
  conj_rel (multiply a' b') (multiply a b).
Proof.
  intros [Har Hai] [Hbr Hbi]. unfold multiply, conj_rel; js_F. split.
  - apply sub_congr; [apply mul_congr; assumption|].
    eapply svz_trans; [apply mul_congr; eassumption|].
    rewrite mul_opp_l, mul_opp_r, opp_opp. apply svz_refl.
  - eapply svz_trans; [apply add_congr; apply mul_congr; eassumption|].
    rewrite mul_opp_r, mul_opp_l. apply add_opp.
Qed.

Lemma zeta_step_conj_rel (s : ComplexNumber float) (n : Z) acc' acc :
  conj_rel acc' acc ->
  conj_rel (zeta_step (conj s) n acc') (zeta_step s n acc).
Proof.
  intros Hacc. unfold zeta_step. rewrite pow_conj.
  destruct (Z.rem (n - 1) 2 =? 1)%Z;
    [apply sub_conj_rel|apply add_conj_rel];
    try assumption; apply inv_conj_rel, conj_rel_conj.
Qed.

Lemma zeta_loop_conj_rel (s : ComplexNumber float) (k : nat) :
  forall n acc' acc,
    conj_rel acc' acc ->
    conj_rel (zeta_loop k (conj s) n acc') (zeta_loop k s n acc).
Proof.
  induction k as [|k IH]; intros n acc' acc Hacc; simpl; [assumption|].
  apply IH, zeta_step_conj_rel, Hacc.
Qed.

Lemma denominator_conj_rel (s : ComplexNumber float) :
  conj_rel (denominator_of (conj s)) (denominator_of s).
Proof.
  unfold denominator_of.
  change (mkComplex (lit 1 - re (conj s))%js (- im (conj s))%js)
    with (conj (mkComplex (lit 1 - re s)%js (- im s)%js)).
  rewrite pow_conj. apply sub_conj_rel; [|apply conj_rel_conj].
  split; [apply svz_refl|apply svz_zeros].
Qed.

(** With an even cosine and an odd sine, [zeta] at the conjugate of [s] is
    the conjugate of [zeta] at [s], up to the signs of zeros. *)
Lemma zeta_conjugate_binary64 (s : ComplexNumber float) (terms : Z) :
  same_value_zero (re (zeta (mkComplex (re s) (- im s)) terms))
                  (re (zeta s terms))
  /\ same_value_zero (im (zeta (mkComplex (re s) (- im s)) terms))
                     (- im (zeta s terms)).
Proof.
  change (conj_rel (zeta (conj s) terms) (zeta s terms)).
  unfold zeta. apply multiply_conj_rel.
  - unfold etaSum_of. apply zeta_loop_conj_rel.
    split; [apply svz_refl|apply svz_zeros].
  - apply inv_conj_rel, denominator_conj_rel.
Qed.

End ZetaConjugateBinary64.

(** The series library has the parity assumed above. *)
Lemma double_angle_opp (k : nat) :
  forall c s : float,
    Series.double_angle k c (- s)%float =
    (fst (Series.double_angle k c s),
     (- snd (Series.double_angle k c s))%float).
Proof.
  induction k as [|k IH]; intros c s; cbn [Series.double_angle].
  - reflexivity.
  - rewrite mul_opp_l, (mul_opp_r s s), opp_opp.
    rewrite (mul_opp_r 2 s), mul_opp_l. apply IH.
Qed.

Lemma Series_parity : Libm_parity Series.libm.
Proof.
  assert (Hc : forall t, Series.cos_small (- t)%float = Series.cos_small t).
  { intros t. unfold Series.cos_small.
    rewrite mul_opp_l, mul_opp_r, opp_opp. reflexivity. }
  assert (Hs : forall t,
             Series.sin_small (- t)%float = (- Series.sin_small t)%float).
  { intros t. unfold Series.sin_small.
    rewrite (mul_opp_l t (- t)), mul_opp_r, opp_opp. apply mul_opp_l. }
  split; intros b; cbn [libm_cos libm_sin Series.libm];
    unfold Series.cos, Series.sin;
    rewrite div_opp_l, Hc, Hs, double_angle_opp; reflexivity.
Qed.

(** *** The waves in binary64 *)

Section WavesBinary64.
Context {m : Libm}.
Hypothesis Hpar : Libm_parity m.
Import Primes.
Local Open Scope float_scope.

Lemma abs_opp a : abs (- a) = abs a.
Proof.
  apply Prim2SF_inj. rewrite !abs_spec, opp_spec.
  destruct (Prim2SF a); reflexivity.
Qed.

Lemma SFadd_opp_self prec emax u :
  SFadd prec emax u (SFopp u) = S754_zero false
  \/ SFadd prec emax u (SFopp u) = S754_nan.
Proof.
  destruct u as [s|s| |s mu eu]; cbn [SFadd SFopp].
  - left. destruct s; reflexivity.
  - right. destruct s; reflexivity.
  - right. reflexivity.
  - left. rewrite cond_Zopp_negb, Z.add_opp_diag_r. reflexivity.
Qed.

Lemma add_opp_self a : a + - a = 0 \/ a + - a = nan.
Proof.
  destruct (SFadd_opp_self prec emax (Prim2SF a)) as [H|H]; [left|right];
    apply Prim2SF_inj; rewrite add_spec, opp_spec; exact H.
Qed.

Lemma waveY_opp_binary64 (x0 gamma : float) :
  waveY x0 (- gamma) = - waveY x0 gamma.
Proof.
  unfold waveY;
    cbn [times divide neg Math_sqrt Math_abs Math_log Math_sin Number_float].
  rewrite abs_opp, (mul_opp_l gamma (libm_log x0)), (sin_odd m Hpar).
  apply mul_opp_r.
Qed.

(** With an odd sine the wave terms of gamma and -gamma are opposite, bit
    for bit, and their sum is 0, or NaN when the term is not finite. *)
Lemma waveY_pair_binary64 (x0 gamma : float) :
  waveY x0 (- gamma) = - waveY x0 gamma
  /\ (waveY x0 gamma + waveY x0 (- gamma) = 0
      \/ waveY x0 gamma + waveY x0 (- gamma) = nan).
Proof.
  split; [apply waveY_opp_binary64|].
  rewrite waveY_opp_binary64. apply add_opp_self.
Qed.
End WavesBinary64.

(** ** Primes and the steps of the prime counting function *)

Section IntegerPart.
Import Primes.
Local Open Scope Z_scope.

Lemma In_Zrange (lo : Z) (len : nat) (i : Z) :
  In i (Zrange lo len) <-> lo <= i < lo + Z.of_nat len.
Proof.
  unfold Zrange. rewrite in_map_iff. split.
  - intros (k & <- & Hk). apply in_seq in Hk. lia.
  - intros Hi. exists (Z.to_nat (i - lo)). split; [lia|].
    apply in_seq. lia.
Qed.

Lemma primeb_spec (n : Z) : primeb n = true <-> Z.prime n.
Proof.
  unfold primeb, Z.prime. rewrite andb_true_iff, forallb_forall. split.
  - intros [Hn Hall]. apply Z.leb_le in Hn. split; [lia|].
    intros d Hd Hdiv.
    assert (Hin : In d (Zrange 2 (Z.to_nat (n - 2))))
      by (apply In_Zrange; lia).
    specialize (Hall d Hin). apply negb_true_iff, Z.eqb_neq in Hall.
    apply Hall, Z.mod_divide; [lia|assumption].
  - intros [Hn Hall]. split; [apply Z.leb_le; lia|].
    intros d Hd. apply In_Zrange in Hd.
    apply negb_true_iff, Z.eqb_neq. intros Hmod.
    apply (Hall d); [lia|]. apply Z.mod_divide; [lia|assumption].
Qed.

Lemma isPrime_agrees_upto_1000 :
  forallb isPrime_agrees (Zrange 0 1001) = true.
Proof. vm_compute. reflexivity. Qed.

(** C7.  For every integer n in [0, 1000], [isPrime n] returns true exactly
    when n is prime and false exactly when it is not; it returns false for
    n < 2 and otherwise the outcome of trial division by every integer from
    2 to floor(sqrt n).  In particular isPrime(2) = true,
    isPrime(1) = false and isPrime(97) = true. *)
Theorem isPrime_correct (n : Z) :
  0 <= n <= 1000 ->
  (isPrime n = Some true <-> Z.prime n)
  /\ (isPrime n = Some false <-> ~ Z.prime n)
  /\ (n < 2 -> isPrime n = Some false)
  /\ (2 <= n -> isPrime n = Some (trial_division n))
  /\ isPrime 2 = Some true
  /\ isPrime 1 = Some false
  /\ isPrime 97 = Some true.
Proof.
  intros Hn.
  pose proof isPrime_agrees_upto_1000 as Hall.
  rewrite forallb_forall in Hall.
  assert (Hin : In n (Zrange 0 1001)) by (apply In_Zrange; lia).
  specialize (Hall n Hin). unfold isPrime_agrees in Hall.
  destruct (isPrime n) as [b|]; [|discriminate].
  apply andb_true_iff in Hall. destruct Hall as [Hb Ht].
  apply eqb_prop in Hb.
  pose proof (primeb_spec n) as Hp. rewrite <- Hb in Hp.
  split; [|split; [|split; [|split; [|split; [|split]]]]].
  - rewrite <- Hp. split; [intros [= ->]; reflexivity|intros ->; reflexivity].
  - rewrite <- Hp. split.
    + intros [= ->]. discriminate.
    + intros Hne. destruct b; [exfalso; apply Hne|]; reflexivity.
  - intros Hlt. apply Z.ltb_lt in Hlt. rewrite Hlt in Ht.
    destruct b; [discriminate|reflexivity].
  - intros Hge. destruct (Z.ltb_spec n 2); [lia|].
    apply eqb_prop in Ht. rewrite Ht. reflexivity.
  - vm_compute. reflexivity.
  - vm_compute. reflexivity.
  - vm_compute. reflexivity.
Qed.

(** C7 at n = 97. *)
Lemma isPrime_correct_witness :
  (isPrime 97 = Some true <-> Z.prime 97)
  /\ (isPrime 97 = Some false <-> ~ Z.prime 97)
  /\ (97 < 2 -> isPrime 97 = Some false)
  /\ (2 <= 97 -> isPrime 97 = Some (trial_division 97))
  /\ isPrime 2 = Some true
  /\ isPrime 1 = Some false
  /\ isPrime 97 = Some true.
Proof. apply (isPrime_correct 97). lia. Defined.

End IntegerPart.

Section StepPoints.
Import Primes.
Local Open Scope Z_scope.

(** Appending a point that dominates an ordered list keeps it ordered. *)
Lemma StronglySorted_snoc {A : Type} (R : A -> A -> Prop) (l : list A)
  (a : A) :
  StronglySorted R l -> Forall (fun b => R b a) l ->
  StronglySorted R (l ++ [a]).
Proof.
  induction 1 as [|b l Hl IH Hb]; intros Ha; simpl.
  - repeat constructor.
  - inversion Ha; subst. constructor.
    + apply IH; assumption.
    + apply Forall_app; split; [assumption|repeat constructor; assumption].
Qed.

Lemma step_inv_push (maxN : Z) pts (count lx p c : Z) :
  step_inv maxN pts count lx -> lx <= p <= maxN -> count <= c ->
  step_inv maxN (pts ++ [mkVector3 p c 0]) c p.
Proof.
  intros [[rest ->] Hlast Hs Hd Hb] Hp Hc. split.
  - eexists; reflexivity.
  - apply last_last.
  - apply StronglySorted_snoc; [assumption|].
    eapply Forall_impl; [|exact Hd]. unfold step_le; simpl; intros; lia.
  - apply Forall_app; split.
    + eapply Forall_impl; [|exact Hd]. simpl; intros; lia.
    + repeat constructor; simpl; lia.
  - lia.
Qed.

Lemma step_body_inv (maxN : Z) pts (count lx p : Z) :
  step_inv maxN pts count lx -> lx <= p <= maxN ->
  step_inv maxN (fst (step_body (pts, count) p))
           (snd (step_body (pts, count) p)) p
  /\ snd (step_body (pts, count) p) = count + 1.
Proof.
  intros Hinv Hp. unfold step_body.
  rewrite (inv_last _ _ _ _ Hinv); cbn [x fst snd].
  split; [|reflexivity].
  destruct (Z.gtb_spec p lx) as [Hgt|Hle].
  - apply (step_inv_push maxN _ count p); [|lia|lia].
    apply (step_inv_push maxN _ count lx); [assumption|lia|lia].
  - assert (p = lx) by lia; subst p.
    apply (step_inv_push maxN _ count lx); [assumption|lia|lia].
Qed.

Lemma fold_step_inv (maxN : Z) (primes : list Z) :
  forall pts count lx,
    step_inv maxN pts count lx ->
    StronglySorted Z.le primes ->
    Forall (fun p => lx <= p <= maxN) primes ->
    exists pts' lx',
      fold_left step_body primes (pts, count) =
        (pts', count + Z.of_nat (length primes))
      /\ step_inv maxN pts' (count + Z.of_nat (length primes)) lx'.
Proof.
  induction primes as [|p primes IH]; intros pts count lx Hinv Hs Hall.
  - exists pts, lx. simpl. rewrite Z.add_0_r. split; [reflexivity|assumption].
  - inversion Hs as [|? ? Hs' Hp]; subst.
    inversion Hall as [|? ? Hpb Hall']; subst.
    destruct (step_body_inv maxN pts count lx p Hinv Hpb) as [Hinv' Hc].
    cbn [fold_left].
    destruct (step_body (pts, count) p) as [pts1 count1] eqn:E.
    cbn [fst snd] in *. subst count1.
    destruct (IH pts1 (count + 1) p Hinv' Hs') as (pts' & lx' & Hf & Hi).
    { rewrite Forall_forall in *. intros q Hq. specialize (Hp q Hq).
      specialize (Hall' q Hq). lia. }
    exists pts', lx'. cbn [length].
    replace (count + Z.of_nat (S (length primes)))
      with (count + 1 + Z.of_nat (length primes)) by lia.
    split; assumption.
Qed.

(** C8.  For every ordered sequence of primes (non-negative numbers in
    non-decreasing order) and every upper bound of it, the step points
    start at (0,0), never decrease in x nor in count, and end with a
    horizontal segment to x = upperBound at the count reached, which is
    the number of primes.  For the primes up to 30, which is what the
    prime loop computes for maxN = 30, the points at x = 29 are (29, 9)
    and (29, 10): the count there is 10. *)
Theorem stepPoints_monotone (primes : list Z) (upperBound : Z) :
  Sorted Z.le primes ->
  Forall (fun p => 0 <= p <= upperBound) primes ->
  0 <= upperBound ->
  let pts := stepPoints_of primes upperBound in
  (exists rest, pts = origin :: rest)
  /\ StronglySorted step_le pts
  /\ (exists init q,
        pts = init ++ [q; mkVector3 upperBound (Z.of_nat (length primes)) 0]
        /\ y q = Z.of_nat (length primes))
  /\ primes_of 30 = Some primes30
  /\ filter (fun q => x q =? 29) (stepPoints_of primes30 30) =
       [mkVector3 29 9 0; mkVector3 29 10 0].
Proof.
  intros Hs Hall Hub pts.
  assert (Hinit : step_inv upperBound [origin] 0 0).
  { split; [eexists; reflexivity|reflexivity| |
            repeat constructor; simpl; lia|lia].
    repeat constructor. }
  destruct (fold_step_inv upperBound primes [origin] 0 0 Hinit)
    as (pts' & lx' & Hf & Hi).
  { apply Sorted_StronglySorted; [|assumption].
    intros a b c; apply Z.le_trans. }
  { assumption. }
  subst pts. unfold stepPoints_of. rewrite Hf. cbn [Z.add] in *.
  destruct Hi as [[rest ->] Hlast Hsort Hdom Hb].
  split; [|split; [|split; [|split]]].
  - eexists; reflexivity.
  - apply StronglySorted_snoc; [assumption|].
    eapply Forall_impl; [|exact Hdom]. unfold step_le; simpl; intros; lia.
  - exists (removelast (origin :: rest)), (last (origin :: rest) origin).
    split.
    + rewrite (app_removelast_last origin (l := origin :: rest)) at 1
        by discriminate.
      rewrite <- app_assoc. reflexivity.
    + rewrite Hlast. reflexivity.
  - vm_compute. reflexivity.
  - vm_compute. reflexivity.
Qed.

(** C8 at the primes up to 30 with upper bound 30. *)
Lemma stepPoints_monotone_witness :
  let pts := stepPoints_of primes30 30 in
  (exists rest, pts = origin :: rest)
  /\ StronglySorted step_le pts
  /\ (exists init q,
        pts = init ++ [q; mkVector3 30 (Z.of_nat (length primes30)) 0]
        /\ y q = Z.of_nat (length primes30))
  /\ primes_of 30 = Some primes30
  /\ filter (fun q => x q =? 29) (stepPoints_of primes30 30) =
       [mkVector3 29 9 0; mkVector3 29 10 0].
Proof.
  apply (stepPoints_monotone primes30 30).
  - unfold primes30. repeat constructor; lia.
  - unfold primes30. repeat constructor; lia.
  - lia.
Defined.

End StepPoints.

(** ** The exact-real model *)

Section RealFacts.
Local Open Scope R_scope.

Lemma Rleb_true (a b : R) : a <= b -> Rleb a b = true.
Proof.
  intros. unfold Rleb. destruct (Rle_dec a b); [reflexivity|contradiction].
Qed.

Lemma Rleb_false (a b : R) : b < a -> Rleb a b = false.
Proof. intros. unfold Rleb. destruct (Rle_dec a b); [lra|reflexivity]. Qed.

Lemma Rltb_true (a b : R) : a < b -> Rltb a b = true.
Proof.
  intros. unfold Rltb. destruct (Rlt_dec a b); [reflexivity|contradiction].
Qed.

Lemma Rltb_false (a b : R) : b <= a -> Rltb a b = false.
Proof. intros. unfold Rltb. destruct (Rlt_dec a b); [lra|reflexivity]. Qed.

(** A loop that adds [d > 0] to its counter passes any bound. *)
Lemma steps_exist (a b d : R) : 0 < d -> exists n : nat, b < a + INR n * d.
Proof.
  intros Hd. destruct (INR_unbounded ((b - a) / d)) as [n Hn].
  exists n.
  assert (E : (b - a) / d * d = b - a) by (field; lra).
  nra.
Qed.

Lemma ln_pos (u : R) : 1 < u -> 0 < ln u.
Proof. intros. rewrite <- ln_1. apply ln_increasing; lra. Qed.


(** From Machin's formula pi/4 = 2 atan(1/3) + atan(1/7). *)
Lemma PI_bounds : 3141 / 1000 < PI < 3142 / 1000.
Proof.
  pose proof (PI_2_3_7_ineq 1) as [Hlo _].
  pose proof (PI_2_3_7_ineq 2) as [_ Hhi].
  unfold sum_f_R0, tg_alt, PI_2_3_7_tg, Ratan_seq in Hlo, Hhi.
  simpl in Hlo, Hhi. lra.
Qed.

Lemma exp_double (u b : R) : 0 <= b -> b < exp u -> b * b < exp (2 * u).
Proof.
  intros Hb Hlt. replace (2 * u) with (u + u) by ring.
  rewrite exp_plus. nra.
Qed.

(** From 1 + u < exp u, squared repeatedly. *)
Lemma ln_2_bounds : 672 / 1000 < ln 2 < 88 / 100.
Proof.
  split.
  - assert (H1 : 958 / 1000 < exp (- (42 / 1000))).
    { pose proof (exp_ineq1 (- (42 / 1000))). lra. }
    apply exp_double in H1; [|lra].
    apply exp_double in H1; [|lra].
    apply exp_double in H1; [|lra].
    apply exp_double in H1; [|lra].
    replace (2 * (2 * (2 * (2 * - (42 / 1000))))) with (- (672 / 1000))
      in H1 by lra.
    rewrite exp_Ropp in H1.
    apply exp_lt_inv. rewrite exp_ln by lra.
    pose proof (exp_pos (672 / 1000)) as Hpos.
    assert (Hinv : / exp (672 / 1000) * exp (672 / 1000) = 1)
      by (field; lra).
    nra.
  - assert (H1 : 144 / 100 < exp (44 / 100)).
    { pose proof (exp_ineq1 (44 / 100)). lra. }
    apply exp_double in H1; [|lra].
    replace (2 * (44 / 100)) with (88 / 100) in H1 by lra.
    apply exp_lt_inv. rewrite exp_ln by lra. lra.
Qed.


End RealFacts.

(** *** Conjugate symmetry of [zeta] *)

Section ZetaConjugate.
Import Zeta.
Local Open Scope R_scope.

Lemma conj_add (a b : ComplexNumber R) :
  add (conj a) (conj b) = conj (add a b).
Proof. unfold add, conj; js_R; cbn [re im]. f_equal; ring. Qed.

Lemma conj_sub (a b : ComplexNumber R) :
  sub (conj a) (conj b) = conj (sub a b).
Proof. unfold sub, conj; js_R; cbn [re im]. f_equal; ring. Qed.

Lemma conj_multiply (a b : ComplexNumber R) :
  multiply (conj a) (conj b) = conj (multiply a b).
Proof. unfold multiply, conj; js_R; cbn [re im]. f_equal; ring. Qed.

Lemma conj_inv (a : ComplexNumber R) : inv (conj a) = conj (inv a).
Proof.
  unfold inv, conj; js_R; cbn [re im].
  replace (- im a * - im a) with (im a * im a) by ring.
  f_equal. unfold Rdiv. ring.
Qed.

Lemma conj_pow (base : R) (e : ComplexNumber R) :
  pow base (conj e) = conj (pow base e).
Proof.
  unfold pow, conj; js_R; cbn [re im].
  replace (- im e * ln base) with (- (im e * ln base)) by ring.
  rewrite cos_neg, sin_neg. f_equal. ring.
Qed.

Lemma conj_zeta_step (s : ComplexNumber R) (n : Z) (acc : ComplexNumber R) :
  zeta_step (conj s) n (conj acc) = conj (zeta_step s n acc).
Proof.
  unfold zeta_step. rewrite conj_pow, conj_inv.
  destruct (Z.rem (n - 1) 2 =? 1)%Z; [apply conj_sub|apply conj_add].
Qed.

Lemma conj_zeta_loop (s : ComplexNumber R) (k : nat) :
  forall (n : Z) (acc : ComplexNumber R),
    zeta_loop k (conj s) n (conj acc) = conj (zeta_loop k s n acc).
Proof.
  induction k as [|k IH]; intros n acc; simpl; [reflexivity|].
  rewrite conj_zeta_step. apply IH.
Qed.

Lemma conj_denominator (s : ComplexNumber R) :
  denominator_of (conj s) = conj (denominator_of s).
Proof.
  unfold denominator_of.
  change (mkComplex (lit 1 - re (conj s))%js (- im (conj s))%js)
    with (conj (mkComplex (lit 1 - re s)%js (- im s)%js)).
  rewrite conj_pow, <- conj_sub. f_equal.
  unfold conj; js_R; cbn [re im]. f_equal; ring.
Qed.

(** In exact arithmetic the symmetry is an equality. *)
Lemma zeta_conjugate_exact (s : ComplexNumber R) (terms : Z) :
  zeta (mkComplex (re s) (- im s)) terms =
  mkComplex (re (zeta s terms)) (- im (zeta s terms)).
Proof.
  change (zeta (conj s) terms = conj (zeta s terms)).
  unfold zeta, etaSum_of.
  rewrite conj_denominator, conj_inv, <- conj_multiply. f_equal.
  rewrite <- conj_zeta_loop. f_equal.
  unfold conj; js_R; cbn [re im]. f_equal; ring.
Qed.

End ZetaConjugate.

(** C10.  For every complex [s] and every number of terms, [zeta] at the
    conjugate of [s] is the conjugate of [zeta] at [s]:
    zeta((s.re, -s.im), terms) = (z.re, -z.im) with z = zeta(s, terms).
    In the exact-real model this is an equality.  In binary64 it holds for
    every float pair [s], NaN and infinities included, as soon as
    [Math.cos] is even and [Math.sin] is odd; the two sides are then the
    same numbers, of which a zero can differ in its sign. *)
Theorem zeta_conjugate :
  (forall (s : Zeta.ComplexNumber R) (terms : Z),
      Zeta.zeta (Zeta.mkComplex (Zeta.re s) (- Zeta.im s)%R) terms =
      Zeta.mkComplex (Zeta.re (Zeta.zeta s terms))
                     (- Zeta.im (Zeta.zeta s terms))%R)
  /\ (forall (m : Libm), Libm_parity m ->
       forall (s : Zeta.ComplexNumber float) (terms : Z),
         same_value_zero
           (Zeta.re (Zeta.zeta (Zeta.mkComplex (Zeta.re s)
                                               (- Zeta.im s)%float) terms))
           (Zeta.re (Zeta.zeta s terms))
         /\ same_value_zero
              (Zeta.im (Zeta.zeta (Zeta.mkComplex (Zeta.re s)
                                                  (- Zeta.im s)%float) terms))
              (- Zeta.im (Zeta.zeta s terms))%float).
Proof.
  split.
  - exact zeta_conjugate_exact.
  - intros m Hpar s terms. apply zeta_conjugate_binary64. exact Hpar.
Qed.

(** C10 in binary64 at the series library, s = (0.5, 14.134725) and 200
    terms. *)
Lemma zeta_conjugate_witness :
  same_value_zero
    (Zeta.re (Zeta.zeta (N := Number_series)
       (Zeta.mkComplex 0.5%float (- 0x1.c44faacd9e83ep+3)%float) 200))
    (Zeta.re (Zeta.zeta (N := Number_series)
       (Zeta.mkComplex 0.5%float 0x1.c44faacd9e83ep+3%float) 200))
  /\ same_value_zero
       (Zeta.im (Zeta.zeta (N := Number_series)
          (Zeta.mkComplex 0.5%float (- 0x1.c44faacd9e83ep+3)%float) 200))
       (- Zeta.im (Zeta.zeta (N := Number_series)
          (Zeta.mkComplex 0.5%float 0x1.c44faacd9e83ep+3%float) 200))%float.
Proof.
  apply (proj2 zeta_conjugate Series.libm Series_parity
           (Zeta.mkComplex 0.5%float 0x1.c44faacd9e83ep+3%float) 200%Z).
Defined.

(** *** [zeta] at 2 *)

Section ZetaAtTwo.
Import Zeta.
Local Open Scope R_scope.

Lemma pow_at_two (b : R) :
  0 < b -> pow b (mkComplex 2 0) = mkComplex (b * b) 0.
Proof.
  intros Hb. unfold pow; js_R; cbn [re im].
  replace (2 * ln b) with (ln b + ln b) by ring.
  rewrite exp_plus, exp_ln by assumption.
  replace (0 * ln b) with 0 by ring.
  rewrite cos_0, sin_0. f_equal; ring.
Qed.

Lemma eta_term_at_two (n : Z) :
  (1 <= n)%Z ->
  inv (pow (IZR n) (mkComplex 2 0)) = mkComplex (1 / (IZR n * IZR n)) 0.
Proof.
  intros Hn. assert (Hpos : 0 < IZR n) by (apply IZR_lt; lia).
  rewrite pow_at_two by assumption.
  unfold inv; js_R; cbn [re im]. f_equal.
  - field. lra.
  - unfold Rdiv. ring.
Qed.

Lemma Q2R_term (n sg : Z) :
  (1 <= n)%Z -> Q2R (Qmake sg (Z.to_pos (n * n))) = IZR sg / (IZR n * IZR n).
Proof.
  intros Hn. unfold Q2R; cbn [Qnum Qden].
  rewrite Z2Pos.id by nia. rewrite mult_IZR. reflexivity.
Qed.

Lemma zeta_loop_at_two (k : nat) :
  forall (n : Z) (acc : ComplexNumber R),
    (1 <= n)%Z -> im acc = 0 ->
    zeta_loop k (mkComplex 2 0) n acc =
    mkComplex (re acc + Q2R (alt_sum k n)) 0.
Proof.
  induction k as [|k IH]; intros n acc Hn Him; cbn [zeta_loop alt_sum].
  - destruct acc as [r i]; cbn [re im] in *. subst i.
    f_equal. unfold Q2R; simpl. ring.
  - rewrite IH; [|lia|].
    + f_equal. rewrite Q2R_plus, Q2R_term by assumption.
      unfold zeta_step. js_R.
      rewrite eta_term_at_two, sign_test by assumption.
      destruct (Z.odd n); cbn [negb sub add re im]; js_R; lra.
    + unfold zeta_step. js_R. rewrite eta_term_at_two by assumption.
      destruct (Z.rem (n - 1) 2 =? 1)%Z; cbn [sub add re im]; js_R; lra.
Qed.

Lemma denominator_at_two :
  denominator_of (mkComplex 2 0) = mkComplex (1 / 2) 0.
Proof.
  unfold denominator_of, pow, sub; js_R; cbn [re im].
  replace ((1 - 2) * ln 2) with (- ln 2) by ring.
  rewrite exp_Ropp, exp_ln by lra.
  replace (- 0 * ln 2) with 0 by ring.
  rewrite cos_0, sin_0. f_equal; lra.
Qed.

(** [zeta (2,0) terms] is twice the alternating sum, exactly. *)
Lemma zeta_at_two_value (terms : Z) :
  zeta (mkComplex 2 0) terms =
  mkComplex (2 * Q2R (alt_sum (Z.to_nat terms) 1)) 0.
Proof.
  unfold zeta, etaSum_of. rewrite denominator_at_two.
  rewrite zeta_loop_at_two by (js_R; cbn [im]; lia || reflexivity).
  unfold multiply, inv; js_R; cbn [re im]. f_equal; field.
Qed.

Lemma alt_sum_200_bounds :
  8224 / 10000 < Q2R (alt_sum 200 1) < 8225 / 10000.
Proof.
  split.
  - replace (8224 / 10000) with (Q2R (8224 # 10000))
      by (unfold Q2R; simpl; lra).
    apply Qlt_Rlt. vm_compute. reflexivity.
  - replace (8225 / 10000) with (Q2R (8225 # 10000))
      by (unfold Q2R; simpl; lra).
    apply Qlt_Rlt. vm_compute. reflexivity.
Qed.

(** In exact arithmetic the value is within 1e-2 of (pi^2/6, 0). *)
Lemma zeta_2_200_exact :
  Rabs (re (zeta (mkComplex 2 0) 200) - PI * PI / 6) < 1 / 100
  /\ Rabs (im (zeta (mkComplex 2 0) 200) - 0) < 1 / 100.
Proof.
  rewrite zeta_at_two_value. cbn [re im].
  change (Z.to_nat 200) with 200%nat.
  pose proof alt_sum_200_bounds as [Hlo Hhi].
  pose proof PI_bounds as [Plo Phi].
  split; apply Rabs_def1; nra.
Qed.

End ZetaAtTwo.

(** C2.  [zeta] at (2, 0) with 200 terms has its real part within 1e-2 of
    pi^2/6 and its imaginary part within 1e-2 of 0.  In the exact-real
    model this is proved (the imaginary part is 0 there); in binary64 it is
    what the code evaluates to with the series library, against the
    binary64 number nearest to pi^2/6. *)
Theorem zeta_2_200_near_basel :
  ((Rabs (Zeta.re (Zeta.zeta (Zeta.mkComplex 2 0) 200) - PI * PI / 6)
    < 1 / 100)%R
   /\ (Rabs (Zeta.im (Zeta.zeta (Zeta.mkComplex 2 0) 200) - 0)
       < 1 / 100)%R)
  /\ (let z := Zeta.zeta (N := Number_series)
                  (Zeta.mkComplex 2 0)%float 200 in
      PrimFloat.ltb
        (PrimFloat.abs (Zeta.re z - 0x1.a51a6625307d3p+0)%float)
        (1 / 100)%float
      && PrimFloat.ltb (PrimFloat.abs (Zeta.im z)) (1 / 100)%float = true).
Proof.
  split.
  - exact zeta_2_200_exact.
  - vm_compute. reflexivity.
Qed.

(** *** The waves of the explicit formula *)

Section Waves.
Import Primes.
Local Open Scope R_scope.

Lemma waveY_opp (x0 gamma : R) : waveY x0 (- gamma) = - waveY x0 gamma.
Proof.
  unfold waveY; js_R.
  rewrite Rabs_Ropp.
  replace (- gamma * ln x0) with (- (gamma * ln x0)) by ring.
  rewrite sin_neg. ring.
Qed.

(** 14.13 ln 2 lies between 3 pi and 4 pi. *)
Lemma sin_phase_2_1413 : sin (1413 / 100 * ln 2) < 0.
Proof.
  pose proof PI_bounds. pose proof ln_2_bounds.
  replace (1413 / 100 * ln 2)
    with ((1413 / 100 * ln 2 - 2 * PI) + 2 * INR 1 * PI) by (simpl; ring).
  rewrite sin_period. apply sin_lt_0; lra.
Qed.

(** In exact arithmetic, at x = 2 and gamma = 14.13. *)
Lemma wave_pair_sum_exact :
  waveY 2 (1413 / 100) + waveY 2 (- (1413 / 100))
  <> pairWaveY 2 (1413 / 100).
Proof.
  rewrite waveY_opp.
  unfold pairWaveY, waveY; js_R.
  pose proof sin_phase_2_1413 as Hs.
  assert (Hq : 0 < sqrt 2) by (apply sqrt_lt_R0; lra).
  assert (Ha : 0 < sqrt 2 / (1413 / 100)) by (apply Rdiv_lt_0_compat; lra).
  rewrite (Rabs_pos_eq (1413 / 100)) by lra.
  nra.
Qed.

(** In exact arithmetic: the two terms are opposite and the paired
    correction is twice the term of gamma. *)
Lemma wave_pair_cancels_exact (x0 gamma : R) :
  2 <= x0 -> 0 < gamma ->
  waveY x0 gamma = - (sqrt x0 / Rabs gamma) * sin (gamma * ln x0)
  /\ waveY x0 (- gamma) = - (sqrt x0 / Rabs (- gamma)) * sin (- gamma * ln x0)
  /\ waveY x0 gamma + waveY x0 (- gamma) = 0
  /\ pairWaveY x0 gamma = - 2 * (sqrt x0 / gamma) * sin (gamma * ln x0)
  /\ pairWaveY x0 gamma = 2 * waveY x0 gamma.
Proof.
  intros _ Hg. split; [reflexivity|]. split; [reflexivity|].
  split; [rewrite waveY_opp; ring|]. split; [reflexivity|].
  unfold pairWaveY, waveY; js_R.
  rewrite (Rabs_pos_eq gamma) by lra. ring.
Qed.

End Waves.

(** C3 as stated fails at x = 2 and gamma = 14.13, the first abscissa and
    the first ordinate of the source: the wave terms of the pair
    (gamma, -gamma) do not sum to the paired correction of the Riemann
    sum.  In exact arithmetic they differ; evaluated in binary64 with the
    series library, the pair sums to 0 and the correction is positive. *)
Lemma wave_pair_sum_is_not_correction :
  (Primes.waveY 2 (1413 / 100) + Primes.waveY 2 (- (1413 / 100))
   <> Primes.pairWaveY 2 (1413 / 100))%R
  /\ ((Primes.waveY (N := Number_series) 2 (1413 / 100)
       + Primes.waveY (N := Number_series) 2 (- (1413 / 100))
       = 0)%float
      /\ PrimFloat.ltb 0%float
           (Primes.pairWaveY (N := Number_series)
              2%float (1413 / 100)%float) = true).
Proof.
  split.
  - exact wave_pair_sum_exact.
  - exact wave_pair_binary64.
Qed.

(** C3, as the code has it.  For every real x >= 2 and every positive
    real gamma (the domain of the claim, where the source takes the
    logarithm and the root of x and divides by gamma): the wave term of an
    ordinate g is -(sqrt x / |g|) sin(g ln x); the terms of gamma and of
    -gamma are
    opposite, so the pair sums to 0; and the paired correction
    -2 (sqrt x / gamma) sin(gamma ln x) of the Riemann sum is twice the term
    of gamma alone.  The cancellation is not an effect of exact arithmetic:
    in binary64, with an odd [Math.sin], the two terms are opposite bit for
    bit and their sum is 0 (NaN when the term is not finite). *)
Theorem wave_pair_cancels :
  (forall x0 gamma : R,
      (2 <= x0)%R -> (0 < gamma)%R ->
      (Primes.waveY x0 gamma
         = - (sqrt x0 / Rabs gamma) * sin (gamma * ln x0)
       /\ Primes.waveY x0 (- gamma)
          = - (sqrt x0 / Rabs (- gamma)) * sin (- gamma * ln x0)
       /\ Primes.waveY x0 gamma + Primes.waveY x0 (- gamma) = 0
       /\ Primes.pairWaveY x0 gamma
          = - 2 * (sqrt x0 / gamma) * sin (gamma * ln x0)
       /\ Primes.pairWaveY x0 gamma = 2 * Primes.waveY x0 gamma)%R)
  /\ (forall (m : Libm), Libm_parity m ->
       forall x0 gamma : float,
         (Primes.waveY x0 (- gamma) = - Primes.waveY x0 gamma
          /\ (Primes.waveY x0 gamma + Primes.waveY x0 (- gamma) = 0
              \/ Primes.waveY x0 gamma + Primes.waveY x0 (- gamma) = nan))
         %float).
Proof.
  split.
  - exact wave_pair_cancels_exact.
  - intros m Hpar x0 gamma. apply waveY_pair_binary64. exact Hpar.
Qed.

(** C3 (as the code has it) at x = 2, gamma = 14.13, in exact arithmetic. *)
Lemma wave_pair_cancels_witness :
  (Primes.waveY 2 (1413 / 100)
     = - (sqrt 2 / Rabs (1413 / 100)) * sin (1413 / 100 * ln 2)
   /\ Primes.waveY 2 (- (1413 / 100))
      = - (sqrt 2 / Rabs (- (1413 / 100))) * sin (- (1413 / 100) * ln 2)
   /\ Primes.waveY 2 (1413 / 100) + Primes.waveY 2 (- (1413 / 100)) = 0
   /\ Primes.pairWaveY 2 (1413 / 100)
      = - 2 * (sqrt 2 / (1413 / 100)) * sin (1413 / 100 * ln 2)
   /\ Primes.pairWaveY 2 (1413 / 100) = 2 * Primes.waveY 2 (1413 / 100))%R.
Proof. apply (proj1 wave_pair_cancels 2%R (1413 / 100)%R); lra. Defined.

(** *** The quadrature of Li *)

Section LiQuadrature.
Import Primes.
Local Open Scope R_scope.







End LiQuadrature.

(** *** The Riemann sum *)

Section RiemannSum.
Import Primes.
Local Open Scope R_scope.

Lemma liVal_loop_unfold (fuel : nat) (x0 subDt t liVal : R) :
  liVal_loop fuel x0 subDt t liVal =
  if Rltb t x0 then
    match fuel with
    | O => None
    | S fuel' =>
        liVal_loop fuel' x0 subDt (t + subDt) (liVal + 1 / ln t * subDt)
    end
  else Some liVal.
Proof. destruct fuel; reflexivity. Qed.

Lemma liVal_loop_terminates (x0 subDt : R) (n : nat) :
  forall t liVal,
    x0 <= t + INR n * subDt ->
    exists r, liVal_loop n x0 subDt t liVal = Some r.
Proof.
  induction n as [|n IH]; intros t liVal Hn; rewrite liVal_loop_unfold.
  - simpl in Hn. rewrite Rltb_false by lra. eexists; reflexivity.
  - unfold Rltb. destruct (Rlt_dec t x0); [|eexists; reflexivity].
    apply IH. rewrite S_INR in Hn. lra.
Qed.

Lemma totalY_terminates (n : nat) (x0 : R) (gs : list R) :
  x0 <= 2 + INR n * (1 / 10) ->
  exists v, totalY n x0 gs = Some v.
Proof.
  intros Hn. unfold totalY; js_R.
  destruct (liVal_loop_terminates x0 (1 / 10) n 2 0 Hn) as [r ->].
  eexists; reflexivity.
Qed.

Lemma sum_loop_unfold (fuel0 fuel : nat) (maxN x0 : R) gs pts :
  sum_loop fuel0 fuel maxN x0 gs pts =
  if Rleb x0 maxN then
    match fuel with
    | O => None
    | S fuel' =>
        match totalY fuel0 x0 gs with
        | None => None
        | Some t =>
            sum_loop fuel0 fuel' maxN (x0 + 2 / 10) gs
              (pts ++ [mkVector3 x0 t 0])
        end
    end
  else Some pts.
Proof. destruct fuel; reflexivity. Qed.

Lemma sum_loop_terminates (fuel0 : nat) (maxN : R) (gs : list R) (n : nat) :
  maxN <= 2 + INR fuel0 * (1 / 10) ->
  forall x0 pts,
    maxN < x0 + INR n * (2 / 10) ->
    exists r, sum_loop fuel0 n maxN x0 gs pts = Some r.
Proof.
  intros H0.
  induction n as [|n IH]; intros x0 pts Hn; rewrite sum_loop_unfold.
  - simpl in Hn. rewrite Rleb_false by lra. eexists; reflexivity.
  - unfold Rleb. destruct (Rle_dec x0 maxN); [|eexists; reflexivity].
    destruct (totalY_terminates fuel0 x0 gs) as [v ->]; [lra|].
    apply IH. rewrite S_INR in Hn. lra.
Qed.






End RiemannSum.


(** * Further properties of the code

    What follows covers the code around the claims: the symmetry and the
    ranges of [ComplexNumber] and [zeta] in binary64, the list of primes and
    the steps built from it, the sample sets of the loops of both views, the
    layout of the waves, the curves of the zeta view against those of the
    primes view, and the two quadratures of 1/ln as the loops compute
    them. *)

(** Class projections of the binary64 model, reduced to the primitive
    operations. *)
Ltac js_float :=
  cbn [lit plus minus times divide neg lt le Math_log Math_exp Math_cos
       Math_sin Math_sqrt Math_abs Number_float Zeta.re Zeta.im] in *.

(** ** [ComplexNumber] and [zeta] in binary64: symmetry and range *)

Section SpecFloatCommute.

Lemma SFmul_comm prec emax u v : SFmul prec emax u v = SFmul prec emax v u.
Proof.
  destruct u as [s|s| |s m e], v as [s'|s'| |s' m' e']; simpl;
    rewrite ?(xorb_comm s s'); try reflexivity.
  rewrite (Pos.mul_comm m m'), (Z.add_comm e e'). reflexivity.
Qed.

Lemma SFadd_comm prec emax u v : SFadd prec emax u v = SFadd prec emax v u.
Proof.
  destruct u as [s|s| |s m e], v as [s'|s'| |s' m' e']; simpl;
    try reflexivity.
  - destruct s, s'; reflexivity.
  - destruct s, s'; reflexivity.
  - rewrite (Z.min_comm e e'), Z.add_comm. reflexivity.
Qed.

End SpecFloatCommute.

Section FloatRange.
Local Open Scope float_scope.

Lemma float_mul_comm (a b : float) : a * b = b * a.
Proof. apply Prim2SF_inj. rewrite !mul_spec. apply SFmul_comm. Qed.

Lemma float_add_comm (a b : float) : a + b = b + a.
Proof. apply Prim2SF_inj. rewrite !add_spec. apply SFadd_comm. Qed.

Lemma mul_nan_l (a : float) : nan * a = nan.
Proof. rewrite float_mul_comm. apply mul_nan_r. Qed.

Lemma add_nan_l (a : float) : nan + a = nan.
Proof.
  apply Prim2SF_inj. rewrite add_spec.
  change (Prim2SF nan) with S754_nan. reflexivity.
Qed.

Lemma sub_nan_l (a : float) : nan - a = nan.
Proof.
  apply Prim2SF_inj. rewrite sub_spec.
  change (Prim2SF nan) with S754_nan. reflexivity.
Qed.

Lemma sub_nan_r (a : float) : a - nan = nan.
Proof.
  apply Prim2SF_inj. rewrite sub_spec.
  change (Prim2SF nan) with S754_nan.
  destruct (Prim2SF a); reflexivity.
Qed.

(** Division by a zero never gives a finite number. *)
Lemma div_by_zero (a d : float) :
  (d =? 0) = true -> is_finite (a / d) = false.
Proof.
  unfold is_finite.
  rewrite FloatAxioms.eqb_spec, ltb_spec, abs_spec, div_spec.
  change (Prim2SF 0) with (S754_zero false).
  change (Prim2SF infinity) with (S754_infinity false).
  destruct (Prim2SF d) as [s|s| |s m e]; try discriminate.
  - intros _. destruct (Prim2SF a) as [s'|s'| |s' m' e']; reflexivity.
  - destruct s; discriminate.
  - destruct s; simpl; unfold SFeqb; simpl; discriminate.
Qed.

(** A finite number divided by infinity is a zero. *)
Lemma div_by_infinity (a : float) :
  is_finite a = true -> (a / infinity =? 0) = true.
Proof.
  unfold is_finite.
  rewrite FloatAxioms.eqb_spec, ltb_spec, abs_spec, div_spec.
  change (Prim2SF 0) with (S754_zero false).
  change (Prim2SF infinity) with (S754_infinity false).
  destruct (Prim2SF a) as [s'|s'| |s' m' e']; try discriminate;
    intros _; reflexivity.
Qed.

Lemma opp_finite (a : float) : is_finite (- a) = is_finite a.
Proof. unfold is_finite. rewrite abs_opp. reflexivity. Qed.

Lemma ltb_opp_pos (a : float) : (0 <? a) = true -> (0 <? - a) = false.
Proof.
  rewrite !ltb_spec, opp_spec. change (Prim2SF 0) with (S754_zero false).
  destruct (Prim2SF a) as [s|s| |s ma ea]; try discriminate;
    destruct s; try discriminate; reflexivity.
Qed.

Lemma ltb_opp_neg (a : float) :
  (a <? 0) = true -> (0 <? a) = false /\ (0 <? - a) = true.
Proof.
  rewrite !ltb_spec, opp_spec. change (Prim2SF 0) with (S754_zero false).
  destruct (Prim2SF a) as [s|s| |s ma ea]; try discriminate;
    destruct s; try discriminate; split; reflexivity.
Qed.

End FloatRange.

Section ComplexBinary64.
Import Zeta.
Context {m : Libm}.
Local Open Scope float_scope.

(** X4.  In binary64, [add] and [multiply] are commutative bit for bit:
    for all complex a and c, a.add(c) is c.add(a) and a.multiply(c) is
    c.multiply(a), NaN and signed zeros included. *)
Theorem complex_ops_commute (a c : ComplexNumber float) :
  add a c = add c a /\ multiply a c = multiply c a.
Proof.
  unfold add, multiply. js_float. split.
  - rewrite (float_add_comm (re a)), (float_add_comm (im a)). reflexivity.
  - rewrite (float_mul_comm (re a) (re c)), (float_mul_comm (im a) (im c)).
    rewrite (float_mul_comm (re a) (im c)), (float_mul_comm (im a) (re c)).
    rewrite (float_add_comm (im c * re a)). reflexivity.
Qed.

(** X5.  The range of [inv] in binary64.  Whenever the squared modulus
    c.re^2 + c.im^2 evaluates to a zero (at c = 0, and also when it
    underflows, as at c = (2^-600, 0)), both components of inv(c) are
    infinite or NaN; whenever it evaluates to Infinity while c is finite
    (as at c = (2^600, 1)), both components of inv(c) are zeros. *)
Theorem inv_out_of_range (c : ComplexNumber float) :
  let denom := re c * re c + im c * im c in
  ((denom =? 0) = true ->
   is_finite (re (inv c)) = false /\ is_finite (im (inv c)) = false)
  /\ (denom = infinity ->
      is_finite (re c) = true -> is_finite (im c) = true ->
      (re (inv c) =? 0) = true /\ (im (inv c) =? 0) = true).
Proof.
  intros denom. unfold inv. js_float. fold denom. split.
  - intros Hd. split; apply div_by_zero; exact Hd.
  - intros -> Hre Him. split; apply div_by_infinity; [exact Hre|].
    rewrite opp_finite. exact Him.
Qed.

Lemma zeta_loop_nan (s : ComplexNumber float) (k : nat) :
  forall n, zeta_loop k s n (mkComplex nan nan) = mkComplex nan nan.
Proof.
  induction k as [|k IH]; intros n; cbn [zeta_loop]; [reflexivity|].
  unfold zeta_step. destruct (Z.rem (n - 1) 2 =? 1)%Z;
    unfold sub, add; js_float; rewrite ?sub_nan_l, ?add_nan_l; apply IH.
Qed.

Hypothesis Hm : Libm_ok m.

Lemma pow_two_real (sigma : float) :
  pow 2 (mkComplex sigma 0) =
  mkComplex (libm_exp (sigma * libm_log 2) * 1)
            (libm_exp (sigma * libm_log 2) * 0).
Proof.
  unfold pow; js_float.
  rewrite (mul_zero_l false) by apply Hm.
  rewrite (cos_zero m Hm), (sin_zero m Hm). reflexivity.
Qed.

Lemma term_two_nan (sigma : float) :
  libm_exp (sigma * libm_log 2) = 0
  \/ libm_exp (sigma * libm_log 2) = infinity ->
  inv (pow 2 (mkComplex sigma 0)) = mkComplex nan nan.
Proof.
  rewrite pow_two_real. intros [-> | ->]; vm_compute; reflexivity.
Qed.

(** X6.  The range of [zeta] in binary64, on the real axis.  Given what
    ECMAScript fixes of [Math] at zero and a positive finite [Math.log(2)]:
    for every real s = (sigma, 0) and every terms >= 2, if
    [Math.exp(sigma * Math.log(2))] underflows to 0 or overflows to
    Infinity, then the term 1/2^s is (NaN, NaN) and [zeta] returns
    (NaN, NaN). *)
Theorem zeta_nan_when_exp_saturates (sigma : float) (terms : Z) :
  (2 <= terms)%Z ->
  libm_exp (sigma * libm_log 2) = 0
  \/ libm_exp (sigma * libm_log 2) = infinity ->
  inv (pow 2 (mkComplex sigma 0)) = mkComplex nan nan
  /\ zeta (mkComplex sigma 0) terms = mkComplex nan nan.
Proof.
  intros Ht Hexp. split; [apply term_two_nan, Hexp|].
  unfold zeta, etaSum_of.
  replace (Z.to_nat terms) with (S (S (Z.to_nat (terms - 2)))) by lia.
  cbn [zeta_loop]. unfold zeta_step at 1.
  change (Z.rem (1 + 1 - 1) 2 =? 1)%Z with true. cbv iota.
  change (lit (1 + 1)%Z) with 2.
  rewrite (term_two_nan sigma Hexp).
  unfold sub at 1. js_float. rewrite !sub_nan_r.
  rewrite zeta_loop_nan.
  unfold multiply; js_float. rewrite !mul_nan_l, sub_nan_l, add_nan_l.
  reflexivity.
Qed.

Lemma denominator_near_one (sigma : float) :
  libm_exp ((1 - sigma) * libm_log 2) = 1 ->
  denominator_of (mkComplex sigma 0) = mkComplex 0 0.
Proof.
  intros Hexp. unfold denominator_of, pow, sub. js_float.
  change (Z2F 1) with 1. change (Z2F 2) with 2. change (Z2F 0) with 0.
  rewrite Hexp. change (- 0) with (-0).
  rewrite (mul_zero_l true) by apply Hm.
  rewrite (cos_neg_zero m Hm), (sin_neg_zero m Hm). reflexivity.
Qed.

(** X3.  Where [zeta] divides by zero in binary64, on the real axis.
    Given what ECMAScript fixes of [Math] at zero and a positive finite
    [Math.log(2)]: for every real s = (sigma, 0) and every number of terms,
    if [Math.exp((1 - sigma) * Math.log(2))] is 1, then the denominator
    1 - 2^(1-s) is the zero complex value and [zeta] returns (NaN, NaN).
    This is so at sigma = 1, and also at the number next below 1,
    sigma = 1 - 2^-53, where the exponential rounds to 1: the division by
    zero is not confined to s = 1. *)
Theorem zeta_nan_when_exp_rounds_to_one (sigma : float) (terms : Z) :
  libm_exp ((1 - sigma) * libm_log 2) = 1 ->
  denominator_of (mkComplex sigma 0) = mkComplex 0 0
  /\ zeta (mkComplex sigma 0) terms = mkComplex nan nan.
Proof.
  intros Hexp. split; [apply denominator_near_one; assumption|].
  unfold zeta. rewrite denominator_near_one by assumption.
  change (inv (mkComplex 0 0)) with (mkComplex nan nan).
  unfold multiply; cbn [re im times minus plus Number_float].
  rewrite !mul_nan_r. reflexivity.
Qed.

End ComplexBinary64.

(** X5 at c = (2^-600, 0), where the squared modulus underflows, and at
    c = (2^600, 1), where it overflows. *)
Lemma inv_out_of_range_witness :
  (is_finite (Zeta.re (Zeta.inv (N := Number_series)
                         (Zeta.mkComplex 0x1p-600%float 0%float))) = false
   /\ is_finite (Zeta.im (Zeta.inv (N := Number_series)
                            (Zeta.mkComplex 0x1p-600%float 0%float))) = false)
  /\ (PrimFloat.eqb
        (Zeta.re (Zeta.inv (N := Number_series)
                    (Zeta.mkComplex 0x1p+600%float 1%float))) 0%float = true
      /\ PrimFloat.eqb
           (Zeta.im (Zeta.inv (N := Number_series)
                       (Zeta.mkComplex 0x1p+600%float 1%float))) 0%float
         = true).
Proof.
  split.
  - apply (proj1 (@inv_out_of_range Series.libm
                    (Zeta.mkComplex 0x1p-600%float 0%float))).
    vm_compute. reflexivity.
  - apply (proj2 (@inv_out_of_range Series.libm
                    (Zeta.mkComplex 0x1p+600%float 1%float)));
      vm_compute; reflexivity.
Defined.

(** X6 with the series library, at sigma = 2000 (overflow) with 200
    terms. *)
Lemma zeta_nan_when_exp_saturates_witness :
  Zeta.inv (N := Number_series)
    (Zeta.pow (N := Number_series) 2%float
       (Zeta.mkComplex 2000%float 0%float)) = Zeta.mkComplex nan nan
  /\ Zeta.zeta (N := Number_series) (Zeta.mkComplex 2000%float 0%float) 200
     = Zeta.mkComplex nan nan.
Proof.
  apply (@zeta_nan_when_exp_saturates Series.libm).
  - constructor; vm_compute; reflexivity.
  - lia.
  - right. vm_compute. reflexivity.
Defined.

(** X3 with the series library, at sigma = 1 - 2^-53 with 200 terms. *)
Lemma zeta_nan_when_exp_rounds_to_one_witness :
  Zeta.denominator_of (N := Number_series)
    (Zeta.mkComplex 0x1.fffffffffffffp-1%float 0%float)
  = Zeta.mkComplex 0%float 0%float
  /\ Zeta.zeta (N := Number_series)
       (Zeta.mkComplex 0x1.fffffffffffffp-1%float 0%float) 200
     = Zeta.mkComplex nan nan.
Proof.
  apply (@zeta_nan_when_exp_rounds_to_one Series.libm).
  - constructor; vm_compute; reflexivity.
  - vm_compute. reflexivity.
Defined.

(** ** The list of primes and the steps, in closed form *)

Section PrimesList.
Import Primes.
Local Open Scope Z_scope.

Lemma Zrange_S (lo : Z) (len : nat) :
  Zrange lo (S len) = lo :: Zrange (lo + 1) len.
Proof.
  unfold Zrange. cbn [seq map]. rewrite Z.add_0_r. f_equal.
  rewrite <- seq_shift, map_map. apply map_ext. intros k. lia.
Qed.

Lemma isPrime_upto_1000 (n : Z) :
  0 <= n <= 1000 -> isPrime n = Some (primeb n).
Proof.
  intros Hn.
  pose proof isPrime_agrees_upto_1000 as Hall.
  rewrite forallb_forall in Hall.
  assert (Hin : In n (Zrange 0 1001)) by (apply In_Zrange; lia).
  specialize (Hall n Hin). unfold isPrime_agrees in Hall.
  destruct (isPrime n) as [b|]; [|discriminate].
  apply andb_true_iff in Hall. destruct Hall as [Hb _].
  apply eqb_prop in Hb. rewrite Hb. reflexivity.
Qed.

Lemma primes_loop_filter (k : nat) :
  forall (i : Z) (acc : list Z),
    0 <= i -> i + Z.of_nat k <= 1001 ->
    primes_loop k i acc = Some (acc ++ filter primeb (Zrange i k)).
Proof.
  induction k as [|k IH]; intros i acc Hi Hk.
  - simpl. rewrite app_nil_r. reflexivity.
  - cbn [primes_loop]. rewrite isPrime_upto_1000 by lia.
    rewrite IH by lia. rewrite Zrange_S. cbn [filter].
    destruct (primeb i); [rewrite <- app_assoc|]; reflexivity.
Qed.

Lemma Zrange_sorted (len : nat) :
  forall lo, StronglySorted Z.lt (Zrange lo len).
Proof.
  induction len as [|len IH]; intros lo.
  - constructor.
  - rewrite Zrange_S. constructor; [apply IH|].
    apply Forall_forall. intros j Hj. apply In_Zrange in Hj. lia.
Qed.

Lemma StronglySorted_filter {A : Type} (R : A -> A -> Prop) (f : A -> bool)
  (l : list A) :
  StronglySorted R l -> StronglySorted R (filter f l).
Proof.
  induction 1 as [|a l Hl IH Ha]; simpl; [constructor|].
  destruct (f a); [|assumption].
  constructor; [assumption|].
  apply Forall_forall. intros b Hb. apply filter_In in Hb.
  rewrite Forall_forall in Ha. apply Ha, Hb.
Qed.

(** X7.  For every bound maxN <= 1000 (negative bounds included), the loop
    that fills [primes] returns, and the array holds exactly the prime
    numbers p <= maxN, each once, in strictly increasing order. *)
Theorem primes_of_correct (maxN : Z) :
  maxN <= 1000 ->
  exists primes,
    primes_of maxN = Some primes
    /\ (forall p, In p primes <-> Z.prime p /\ p <= maxN)
    /\ StronglySorted Z.lt primes.
Proof.
  intros Hn. exists (filter primeb (Zrange 0 (Z.to_nat (maxN + 1)))).
  split; [|split].
  - unfold primes_of. rewrite primes_loop_filter by lia. reflexivity.
  - intros p. rewrite filter_In, In_Zrange, primeb_spec. split.
    + intros [Hr Hp]. split; [assumption|lia].
    + intros [Hp Hle]. split; [|assumption].
      destruct Hp as [Hp _]. lia.
  - apply StronglySorted_filter, Zrange_sorted.
Qed.

(** X7 at maxN = 100, the constant of the source. *)
Lemma primes_of_correct_witness :
  exists primes,
    primes_of 100 = Some primes
    /\ (forall p, In p primes <-> Z.prime p /\ p <= 100)
    /\ StronglySorted Z.lt primes.
Proof. apply (primes_of_correct 100). lia. Defined.

Lemma fold_step_closed (primes : list Z) :
  forall (pts : list (Vector3 Z)) (count lx : Z),
    last pts origin = mkVector3 lx count 0 ->
    StronglySorted Z.lt (lx :: primes) ->
    fold_left step_body primes (pts, count) =
      (pts ++ flat_map step_at
                (combine (Zrange count (length primes)) primes),
       count + Z.of_nat (length primes)).
Proof.
  induction primes as [|p primes IH]; intros pts count lx Hlast Hs.
  - simpl. rewrite app_nil_r, Z.add_0_r. reflexivity.
  - inversion Hs as [|? ? Hs' Hlt]; subst.
    inversion Hlt as [|? ? Hp Hlt']; subst.
    cbn [fold_left]. unfold step_body at 2. rewrite Hlast. cbn [x].
    destruct (Z.gtb_spec p lx) as [_|Hle]; [|lia].
    rewrite (IH _ (count + 1) p).
    + cbn [length]. rewrite Zrange_S. cbn [combine flat_map step_at].
      rewrite <- !app_assoc. cbn [app].
      f_equal. lia.
    + apply last_last.
    + inversion Hs'; subst. constructor; assumption.
Qed.

(** X8.  For every strictly increasing list of positive primes
    p_0 < p_1 < ... < p_(n-1) and every maxN, [stepPoints] is the origin,
    then for each k the two points (p_k, k) and (p_k, k + 1) in order,
    then (maxN, n): 2n + 2 points, a rise of exactly one at each prime. *)
Theorem stepPoints_closed_form (primes : list Z) (maxN : Z) :
  StronglySorted Z.lt (0 :: primes) ->
  stepPoints_of primes maxN =
    origin
    :: flat_map step_at (combine (Zrange 0 (length primes)) primes)
    ++ [mkVector3 maxN (Z.of_nat (length primes)) 0]
  /\ length (stepPoints_of primes maxN) = (2 * length primes + 2)%nat.
Proof.
  intros Hs.
  assert (H : stepPoints_of primes maxN =
              origin
              :: flat_map step_at (combine (Zrange 0 (length primes)) primes)
              ++ [mkVector3 maxN (Z.of_nat (length primes)) 0]).
  { unfold stepPoints_of.
    rewrite (fold_step_closed primes [origin] 0 0 eq_refl Hs).
    reflexivity. }
  split; [exact H|]. rewrite H. cbn [length]. rewrite length_app.
  cbn [length].
  assert (G : forall (l : list Z) (c : Z),
             length (flat_map step_at (combine (Zrange c (length l)) l))
             = (2 * length l)%nat).
  { induction l as [|a l IH]; intros c; [reflexivity|].
    cbn [length]. rewrite Zrange_S. cbn [combine flat_map step_at app length].
    rewrite IH. lia. }
  rewrite G. lia.
Qed.

(** X8 at the primes up to 30 with maxN = 30. *)
Lemma stepPoints_closed_form_witness :
  stepPoints_of primes30 30 =
    origin
    :: flat_map step_at (combine (Zrange 0 (length primes30)) primes30)
    ++ [mkVector3 30 (Z.of_nat (length primes30)) 0]
  /\ length (stepPoints_of primes30 30) = (2 * length primes30 + 2)%nat.
Proof.
  apply (stepPoints_closed_form primes30 30).
  unfold primes30. repeat constructor; lia.
Defined.

End PrimesList.

(** ** Loops that step a number to a bound *)

Section Stepping.
Local Open Scope R_scope.

Lemma passes_exist (x0 bound step : R) :
  0 < step -> exists K, passes x0 bound step K.
Proof.
  intros Hs. destruct (steps_exist x0 bound step Hs) as [n Hn].
  induction n as [|n IH].
  - exists 0%nat. split; [intros k Hk; lia|assumption].
  - destruct (Rlt_dec bound (x0 + INR n * step)) as [Hlt|Hge].
    + apply IH, Hlt.
    + exists (S n). split; [|assumption].
      intros k Hk. apply Rnot_lt_le in Hge.
      assert (INR k <= INR n) by (apply le_INR; lia). nra.
Qed.

Lemma passes_unique (x0 bound step : R) (K K' : nat) :
  passes x0 bound step K -> passes x0 bound step K' -> K = K'.
Proof.
  intros [H1 H2] [H1' H2'].
  destruct (Nat.lt_trichotomy K K') as [Hlt|[Heq|Hgt]]; [|assumption|].
  - specialize (H1' K Hlt). lra.
  - specialize (H1 K' Hgt). lra.
Qed.

Lemma passes_shift (x0 bound step : R) (K : nat) :
  passes x0 bound step (S K) -> passes (x0 + step) bound step K.
Proof.
  intros [H1 H2]. split.
  - intros k Hk. specialize (H1 (S k) ltac:(lia)). rewrite S_INR in H1. lra.
  - rewrite S_INR in H2. lra.
Qed.

Lemma abscissae_exact (bound step : R) (K : nat) :
  forall (x0 : R) (fuel : nat),
    passes x0 bound step K -> (K <= fuel)%nat ->
    abscissae fuel bound step x0 =
      Some (map (fun k => x0 + INR k * step) (seq 0 K)).
Proof.
  induction K as [|K IH]; intros x0 fuel HK Hf.
  - destruct HK as [_ H2]. simpl in H2.
    destruct fuel; simpl; js_R; rewrite Rleb_false by lra; reflexivity.
  - destruct fuel as [|fuel]; [lia|].
    pose proof (proj1 HK 0%nat ltac:(lia)) as H0. simpl in H0.
    cbn [abscissae]; js_R. rewrite Rleb_true by lra.
    rewrite (IH (x0 + step) fuel (passes_shift _ _ _ _ HK)) by lia.
    cbn [option_map seq map]. f_equal. f_equal; [simpl; ring|].
    rewrite <- seq_shift, map_map. apply map_ext.
    intros k. rewrite S_INR. ring.
Qed.

Lemma abscissae_fuel (bound step : R) (fuel : nat) :
  forall (x0 : R) (l : list R),
    0 < step -> abscissae fuel bound step x0 = Some l ->
    passes x0 bound step (length l).
Proof.
  induction fuel as [|fuel IH]; intros x0 l Hs H; cbn [abscissae] in H; js_R.
  - unfold Rleb in H. destruct (Rle_dec x0 bound); [discriminate|].
    injection H as <-. split; [intros k Hk; simpl in Hk; lia|simpl; lra].
  - unfold Rleb in H. destruct (Rle_dec x0 bound) as [Hle|Hgt].
    + destruct (abscissae fuel bound step (x0 + step)) as [l'|] eqn:E;
        [|discriminate].
      injection H as <-. specialize (IH _ _ Hs E). destruct IH as [H1 H2].
      split.
      * intros k Hk. destruct k as [|k]; [simpl; lra|].
        specialize (H1 k ltac:(simpl in Hk; lia)). rewrite S_INR. lra.
      * cbn [length]. rewrite S_INR. lra.
    + injection H as <-. split; [intros k Hk; simpl in Hk; lia|simpl; lra].
Qed.

Lemma abscissae_length (fuel : nat) (bound step : R) :
  forall (x0 : R) (l : list R),
    abscissae fuel bound step x0 = Some l -> (length l <= fuel)%nat.
Proof.
  induction fuel as [|fuel IH]; intros x0 l H; cbn [abscissae] in H;
    destruct (x0 <=? bound)%js; try discriminate;
    try (injection H as <-; simpl; lia).
  destruct (abscissae fuel bound step (x0 + step)%js) as [l'|] eqn:E;
    [|discriminate].
  injection H as <-. apply IH in E. simpl. lia.
Qed.

(** What the loop visits, whatever the fuel it returns with. *)
Lemma abscissae_value (fuel : nat) (bound step x0 : R) (l : list R)
  (K : nat) :
  0 < step -> passes x0 bound step K ->
  abscissae fuel bound step x0 = Some l ->
  l = map (fun k => x0 + INR k * step) (seq 0 K).
Proof.
  intros Hs HK Hl.
  pose proof (abscissae_fuel bound step fuel x0 l Hs Hl) as HK'.
  pose proof (passes_unique _ _ _ _ _ HK' HK) as Hlen.
  pose proof (abscissae_length _ _ _ _ _ Hl) as Hf. rewrite Hlen in Hf.
  rewrite (abscissae_exact bound step K x0 fuel HK Hf) in Hl. congruence.
Qed.

Lemma passes_491 : passes 2 100 (2 / 10) 491.
Proof.
  split.
  - intros k Hk. assert (H : INR k <= 490).
    { replace 490 with (INR 490) by (rewrite INR_IZR_INZ; reflexivity).
      apply le_INR. lia. }
    lra.
  - replace (INR 491) with 491 by (rewrite INR_IZR_INZ; reflexivity). lra.
Qed.

End Stepping.

Lemma Some_eq {A : Type} (a b : A) : Some a = Some b -> a = b.
Proof. intros [= ->]. reflexivity. Qed.

Section Loops.
Context {num : Type} {N : Number num}.
Import Primes.
Local Open Scope js_scope.

Lemma abscissae_indep (f : nat) (bound step : num) :
  forall (f' : nat) (x0 : num) (l l' : list num),
    abscissae f bound step x0 = Some l ->
    abscissae f' bound step x0 = Some l' -> l' = l.
Proof.
  induction f as [|f IH]; intros f' x0 l l' H1 H2;
    destruct f'; cbn [abscissae] in H1, H2;
    destruct (x0 <=? bound)%js; try discriminate; try congruence.
  destruct (abscissae f bound step (x0 + step)%js) as [a|] eqn:E1;
    [|discriminate].
  destruct (abscissae f' bound step (x0 + step)%js) as [a'|] eqn:E2;
    [|discriminate].
  rewrite (IH _ _ _ _ E1 E2) in H2. cbn [option_map] in *. congruence.
Qed.

Lemma approx_loop_abscissae (fuel : nat) (maxN : num) :
  forall (x0 : num) (pts : list (Vector3 num)),
    InitPrimes.approx_loop fuel maxN x0 pts =
    option_map
      (fun xs =>
         pts ++ map (fun x => mkVector3 x (x / Math_log x) (lit 0)) xs)
      (abscissae fuel maxN (dec 5 10) x0).
Proof.
  induction fuel as [|fuel IH]; intros x0 pts;
    cbn [InitPrimes.approx_loop abscissae].
  - destruct (x0 <=? maxN); [reflexivity|]. simpl.
    rewrite app_nil_r. reflexivity.
  - destruct (x0 <=? maxN).
    + rewrite IH. destruct (abscissae fuel maxN (dec 5 10) (x0 + dec 5 10));
        [|reflexivity].
      cbn [option_map map]. rewrite <- app_assoc. reflexivity.
    + simpl. rewrite app_nil_r. reflexivity.
Qed.

Lemma wave_loop_abscissae (fuel : nat) (maxN gamma zo : num) :
  forall (x0 : num) (pts : list (Vector3 num)),
    InitPrimes.wave_loop fuel maxN gamma zo x0 pts =
    option_map
      (fun xs => pts ++ map (fun x => mkVector3 x (waveY x gamma) zo) xs)
      (abscissae fuel maxN (dec 2 10) x0).
Proof.
  induction fuel as [|fuel IH]; intros x0 pts;
    cbn [InitPrimes.wave_loop abscissae].
  - destruct (x0 <=? maxN); [reflexivity|]. simpl.
    rewrite app_nil_r. reflexivity.
  - destruct (x0 <=? maxN).
    + rewrite IH. destruct (abscissae fuel maxN (dec 2 10) (x0 + dec 2 10));
        [|reflexivity].
      cbn [option_map map]. rewrite <- app_assoc. reflexivity.
    + simpl. rewrite app_nil_r. reflexivity.
Qed.

Lemma curve_loop_abscissae (fuel : nat) (sigma maxT tStep scale : num) :
  forall (t0 : num) (pts : list (Vector3 num)),
    InitZeta.curve_loop fuel sigma maxT tStep scale t0 pts =
    option_map
      (fun ts =>
         pts ++ map (fun t =>
                       let z := Zeta.zeta (Zeta.mkComplex sigma t) 200 in
                       mkVector3 (Zeta.re z * scale) t (Zeta.im z * scale))
                    ts)
      (abscissae fuel maxT tStep t0).
Proof.
  induction fuel as [|fuel IH]; intros x0 pts;
    cbn [InitZeta.curve_loop abscissae].
  - destruct (x0 <=? maxT); [reflexivity|]. simpl.
    rewrite app_nil_r. reflexivity.
  - destruct (x0 <=? maxT).
    + rewrite IH. destruct (abscissae fuel maxT tStep (x0 + tStep));
        [|reflexivity].
      cbn [option_map map]. rewrite <- app_assoc. reflexivity.
    + simpl. rewrite app_nil_r. reflexivity.
Qed.

Lemma approx_world_abscissae (fuel : nat) (maxN : num) :
  forall (x0 : num) (pts : list (Vector3 num)),
    InitZeta.approx_loop fuel maxN x0 pts =
    option_map
      (fun xs =>
         pts ++ map (fun x => world (mkVector3 x (x / Math_log x) (lit 0)))
                    xs)
      (abscissae fuel maxN (dec 1 10) x0).
Proof.
  induction fuel as [|fuel IH]; intros x0 pts;
    cbn [InitZeta.approx_loop abscissae].
  - destruct (x0 <=? maxN); [reflexivity|]. simpl.
    rewrite app_nil_r. reflexivity.
  - destruct (x0 <=? maxN).
    + rewrite IH. destruct (abscissae fuel maxN (dec 1 10) (x0 + dec 1 10));
        [|reflexivity].
      cbn [option_map map]. rewrite <- app_assoc. reflexivity.
    + simpl. rewrite app_nil_r. reflexivity.
Qed.

(** The Li loop of the zeta view is that of the primes view, in world
    coordinates. *)
Lemma li_loop_world (fuel : nat) (maxN dt : num) :
  forall (x0 integral : num) (pts : list (Vector3 num)),
    InitZeta.li_loop fuel maxN dt x0 integral (map world pts) =
    option_map (map world) (Primes.li_loop fuel maxN dt x0 integral pts).
Proof.
  induction fuel as [|fuel IH]; intros x0 integral pts;
    cbn [InitZeta.li_loop Primes.li_loop].
  - destruct (x0 <=? maxN); reflexivity.
  - destruct (x0 <=? maxN); [|reflexivity].
    rewrite <- IH, map_app. reflexivity.
Qed.

Lemma li_loop_abscissae (fuel : nat) (maxN dt : num) :
  forall (x0 integral : num) (pts r : list (Vector3 num)),
    li_loop fuel maxN dt x0 integral pts = Some r ->
    exists xs,
      abscissae fuel maxN dt x0 = Some xs
      /\ map x r = map x pts ++ map (fun x' => x' + dt) xs.
Proof.
  induction fuel as [|fuel IH]; intros x0 integral pts r;
    cbn [li_loop abscissae]; destruct (x0 <=? maxN); try discriminate;
    try (intros H; apply Some_eq in H; subst r; exists []; split;
         [reflexivity|symmetry; apply app_nil_r]).
  intros Hr. apply IH in Hr. destruct Hr as (xs & -> & Hx).
  exists (x0 :: xs). split; [reflexivity|].
  rewrite Hx, map_app, <- app_assoc. reflexivity.
Qed.

Lemma li_loop_returns (fuel : nat) (maxN dt : num) :
  forall (x0 integral : num) (pts : list (Vector3 num)) (xs : list num),
    abscissae fuel maxN dt x0 = Some xs ->
    exists r, li_loop fuel maxN dt x0 integral pts = Some r.
Proof.
  induction fuel as [|fuel IH]; intros x0 integral pts xs;
    cbn [li_loop abscissae]; destruct (x0 <=? maxN); try discriminate;
    try (intros _; eexists; reflexivity).
  destruct (abscissae fuel maxN dt (x0 + dt)) as [xs'|] eqn:E;
    [|discriminate].
  intros _. eapply IH. exact E.
Qed.

Lemma liVal_loop_returns (fuel : nat) (x0 subDt : num) :
  forall (t liVal : num),
    returns (liVal_loop fuel x0 subDt t liVal) =
    returns (abscissae_lt fuel x0 subDt t).
Proof.
  induction fuel as [|fuel IH]; intros t liVal;
    cbn [liVal_loop abscissae_lt]; destruct (t <? x0); try reflexivity.
  rewrite IH. destruct (abscissae_lt fuel x0 subDt (t + subDt)); reflexivity.
Qed.

Lemma totalY_returns (fuel : nat) (x0 : num) (gs : list num) :
  returns (totalY fuel x0 gs) =
  returns (abscissae_lt fuel x0 (dec 1 10) (lit 2)).
Proof.
  unfold totalY.
  rewrite <- (liVal_loop_returns fuel x0 (dec 1 10) (lit 2) (lit 0)).
  destruct (liVal_loop fuel x0 (dec 1 10) (lit 2) (lit 0)); reflexivity.
Qed.

Lemma sum_loop_abscissae (fuel0 : nat) (maxN : num) (gs : list num)
  (fuel : nat) :
  forall (x0 : num) (pts r : list (Vector3 num)),
    sum_loop fuel0 fuel maxN x0 gs pts = Some r ->
    exists xs,
      abscissae fuel maxN (dec 2 10) x0 = Some xs
      /\ map x r = map x pts ++ xs.
Proof.
  induction fuel as [|fuel IH]; intros x0 pts r;
    cbn [sum_loop abscissae]; destruct (x0 <=? maxN); try discriminate;
    try (intros [= <-]; exists []; split;
         [reflexivity|symmetry; apply app_nil_r]).
  destruct (totalY fuel0 x0 gs) as [v|]; [|discriminate].
  intros Hr. apply IH in Hr. destruct Hr as (xs & -> & Hx).
  exists (x0 :: xs). split; [reflexivity|].
  rewrite Hx, map_app, <- app_assoc. reflexivity.
Qed.

Lemma sum_loop_returns (fuel0 : nat) (maxN : num) (gs : list num)
  (fuel : nat) :
  forall (x0 : num) (pts : list (Vector3 num)) (xs : list num),
    abscissae fuel maxN (dec 2 10) x0 = Some xs ->
    forallb (fun x' => returns (abscissae_lt fuel0 x' (dec 1 10) (lit 2))) xs
      = true ->
    exists r, sum_loop fuel0 fuel maxN x0 gs pts = Some r.
Proof.
  induction fuel as [|fuel IH]; intros x0 pts xs;
    cbn [sum_loop abscissae]; destruct (x0 <=? maxN); try discriminate;
    try (intros _ _; eexists; reflexivity).
  destruct (abscissae fuel maxN (dec 2 10) (x0 + dec 2 10)) as [xs'|] eqn:E;
    [|discriminate].
  intros [= <-]. cbn [forallb]. rewrite andb_true_iff. intros [H0 Hall].
  rewrite <- totalY_returns with (gs := gs) in H0.
  destruct (totalY fuel0 x0 gs) as [v|]; [|discriminate].
  eapply IH; eassumption.
Qed.

End Loops.

(** The control of the loops in binary64 does not depend on [Math]: the
    abscissae are computed once. *)
Section Binary64Grids.
Context {m : Libm}.

Lemma t_grid :
  option_map t_grid_ok
    (abscissae (Z.to_nat 12001) (lit 60) (dec 1 100) (- lit 60)%js)
  = Some true.
Proof. vm_compute. reflexivity. Qed.

Lemma x_grid :
  option_map
    (fun xs =>
       x_grid_ok xs
       && forallb
            (fun x' => returns (abscissae_lt 1000 x' (dec 1 10) (lit 2))) xs)
    (abscissae 1000 (lit 100) (dec 2 10) (lit 2))
  = Some true.
Proof. vm_compute. reflexivity. Qed.

Lemma li_grid :
  option_map
    (fun xs => li_grid_ok (lit 2 :: map (fun x' => x' + dec 1 10)%js xs))
    (abscissae 1000 (lit 100) (dec 1 10) (lit 2))
  = Some true.
Proof. vm_compute. reflexivity. Qed.

Lemma half_grid :
  option_map half_grid_ok (abscissae 200 (lit 100) (dec 5 10) (lit 2))
  = Some true.
Proof. vm_compute. reflexivity. Qed.

End Binary64Grids.

(** ** The sample sets of the loops, in both models *)

Section SamplesExact.
Import Primes InitPrimes.
Local Open Scope R_scope.

Lemma gammas_positive : Forall (fun g : R => 0 < g) gammas.
Proof. unfold gammas; js_R. repeat constructor; lra. Qed.

Lemma sumPoints_abscissae_exact (gs : list R) :
  (exists fuel pts, sumPoints_of fuel 100 gs = Some pts)
  /\ (forall fuel pts,
        sumPoints_of fuel 100 gs = Some pts ->
        map x pts = map (fun k => 2 + INR k * (2 / 10)) (seq 0 491)).
Proof.
  split.
  - destruct (sum_loop_terminates 1000 100 gs 1000) with (x0 := 2)
      (pts := @nil (Vector3 R)) as [r Hr].
    + replace (INR 1000) with 1000 by (rewrite INR_IZR_INZ; reflexivity).
      lra.
    + replace (INR 1000) with 1000 by (rewrite INR_IZR_INZ; reflexivity).
      lra.
    + exists 1000%nat, r. exact Hr.
  - intros fuel pts Hpts. unfold sumPoints_of in Hpts.
    apply sum_loop_abscissae in Hpts. destruct Hpts as (xs & Hxs & ->).
    js_R. cbn [map app].
    eapply abscissae_value; [|apply passes_491|exact Hxs]. lra.
Qed.

Lemma wavePoints_exact (gs : list R) (gamma : R) :
  let points :=
    map (fun k => let x0 := 2 + INR k * (2 / 10) in
                  mkVector3 x0 (waveY x0 gamma) (zOffset gs gamma))
        (seq 0 491) in
  (exists fuel, wavePoints_of fuel 100 gs gamma = Some points)
  /\ (forall fuel pts,
        wavePoints_of fuel 100 gs gamma = Some pts -> pts = points).
Proof.
  intros points. split.
  - exists 491%nat. unfold wavePoints_of. rewrite wave_loop_abscissae. js_R.
    rewrite (abscissae_exact 100 (2 / 10) 491 2 491 passes_491 (le_n _)).
    cbn [option_map app]. rewrite map_map. reflexivity.
  - intros fuel pts Hpts. unfold wavePoints_of in Hpts.
    rewrite wave_loop_abscissae in Hpts. js_R.
    destruct (abscissae fuel 100 (2 / 10) 2) as [xs|] eqn:E; [|discriminate].
    rewrite (abscissae_value fuel 100 (2 / 10) 2 xs 491 ltac:(lra)
               passes_491 E) in Hpts.
    cbn [option_map app] in Hpts. rewrite map_map in Hpts.
    apply Some_eq in Hpts. subst pts. reflexivity.
Qed.

Lemma approxPoints_exact (maxN : R) :
  exists K,
    passes 2 maxN (5 / 10) K
    /\ (exists fuel,
          approxPoints_of fuel maxN =
          Some (map (fun k => let x0 := 2 + INR k * (5 / 10) in
                              mkVector3 x0 (x0 / ln x0) 0) (seq 0 K)))
    /\ (forall fuel pts,
          approxPoints_of fuel maxN = Some pts ->
          pts = map (fun k => let x0 := 2 + INR k * (5 / 10) in
                              mkVector3 x0 (x0 / ln x0) 0) (seq 0 K)
          /\ Forall (fun p => 2 <= x p <= maxN /\ 0 < y p) pts).
Proof.
  assert (Hs : 0 < 5 / 10) by lra.
  destruct (passes_exist 2 maxN (5 / 10) Hs) as [K HK].
  exists K. split; [exact HK|]. split.
  - exists K. unfold approxPoints_of. rewrite approx_loop_abscissae. js_R.
    rewrite (abscissae_exact maxN (5 / 10) K 2 K HK (le_n _)).
    cbn [option_map app]. rewrite map_map. reflexivity.
  - intros fuel pts Hpts. unfold approxPoints_of in Hpts.
    rewrite approx_loop_abscissae in Hpts. js_R.
    destruct (abscissae fuel maxN (5 / 10) 2) as [xs|] eqn:E; [|discriminate].
    rewrite (abscissae_value fuel maxN (5 / 10) 2 xs K Hs HK E) in Hpts.
    cbn [option_map app] in Hpts. rewrite map_map in Hpts.
    apply Some_eq in Hpts. subst pts. split; [reflexivity|].
    apply Forall_forall. intros p Hp. apply in_map_iff in Hp.
    destruct Hp as (k & <- & Hk). apply in_seq in Hk. cbn [x y].
    pose proof (proj1 HK k ltac:(lia)) as Hle.
    pose proof (pos_INR k) as Hk0.
    split; [lra|].
    apply Rdiv_lt_0_compat; [lra|]. apply ln_pos. lra.
Qed.

End SamplesExact.

Section SamplesBinary64.
Context {m : Libm}.
Import Primes InitPrimes.

Lemma sumPoints_abscissae_binary64 (gs : list float) :
  (exists fuel pts, sumPoints_of fuel (lit 100) gs = Some pts)
  /\ (forall fuel pts,
        sumPoints_of fuel (lit 100) gs = Some pts ->
        x_grid_ok (map x pts) = true).
Proof.
  pose proof x_grid as Hg.
  destruct (abscissae 1000 (lit 100) (dec 2 10) (lit 2)) as [xs|] eqn:E;
    [|discriminate].
  cbn [option_map] in Hg. apply Some_eq in Hg. apply andb_true_iff in Hg. destruct Hg as [Hok Hret].
  split.
  - exists 1000%nat. unfold sumPoints_of.
    eapply sum_loop_returns; eassumption.
  - intros fuel pts Hpts. unfold sumPoints_of in Hpts.
    apply sum_loop_abscissae in Hpts. destruct Hpts as (xs' & Hxs & ->).
    cbn [map app].
    pose proof (@abscissae_indep float (@Number_float m) _ _ _ _ _ _ _
                  E Hxs) as ->.
    exact Hok.
Qed.

Lemma wavePoints_binary64 (gs : list float) (gamma : float) :
  (exists fuel pts, wavePoints_of fuel (lit 100) gs gamma = Some pts)
  /\ (forall fuel pts,
        wavePoints_of fuel (lit 100) gs gamma = Some pts ->
        x_grid_ok (map x pts) = true
        /\ Forall (fun p => y p = waveY (x p) gamma
                            /\ z p = zOffset gs gamma) pts).
Proof.
  pose proof x_grid as Hg.
  destruct (abscissae 1000 (lit 100) (dec 2 10) (lit 2)) as [xs|] eqn:E;
    [|discriminate].
  cbn [option_map] in Hg. apply Some_eq in Hg. apply andb_true_iff in Hg. destruct Hg as [Hok _].
  split.
  - exists 1000%nat. eexists. unfold wavePoints_of.
    rewrite wave_loop_abscissae, E. reflexivity.
  - intros fuel pts Hpts. unfold wavePoints_of in Hpts.
    rewrite wave_loop_abscissae in Hpts.
    destruct (abscissae fuel (lit 100) (dec 2 10) (lit 2)) as [xs'|] eqn:E';
      [|discriminate].
    pose proof (@abscissae_indep float (@Number_float m) _ _ _ _ _ _ _
                  E E') as ->.
    apply Some_eq in Hpts. subst pts. cbn [app]. split.
    + rewrite map_map. cbn [x]. rewrite map_id. exact Hok.
    + apply Forall_forall. intros p Hp. apply in_map_iff in Hp.
      destruct Hp as (t & <- & _). cbn. split; reflexivity.
Qed.

Lemma approxPoints_binary64 :
  (exists fuel pts, approxPoints_of (num := float) fuel (lit 100) = Some pts)
  /\ (forall fuel pts,
        approxPoints_of (num := float) fuel (lit 100) = Some pts ->
        half_grid_ok (map x pts) = true
        /\ Forall (fun p => y p = (x p / libm_log (x p))%float
                            /\ z p = 0%float) pts).
Proof.
  pose proof half_grid as Hg.
  destruct (abscissae 200 (lit 100) (dec 5 10) (lit 2)) as [xs|] eqn:E;
    [|discriminate].
  cbn [option_map] in Hg. apply Some_eq in Hg.
  split.
  - exists 200%nat. eexists. unfold approxPoints_of.
    rewrite approx_loop_abscissae, E. reflexivity.
  - intros fuel pts Hpts. unfold approxPoints_of in Hpts.
    rewrite approx_loop_abscissae in Hpts.
    destruct (abscissae fuel (lit 100) (dec 5 10) (lit 2)) as [xs'|] eqn:E';
      [|discriminate].
    pose proof (@abscissae_indep float (@Number_float m) _ _ _ _ _ _ _
                  E E') as ->.
    apply Some_eq in Hpts. subst pts. cbn [app]. split.
    + rewrite map_map. cbn [x]. rewrite map_id. exact Hg.
    + apply Forall_forall. intros p Hp. apply in_map_iff in Hp.
      destruct Hp as (t & <- & _). cbn. split; reflexivity.
Qed.

End SamplesBinary64.

(** X11.  The curve x / ln x of the primes view (section 4).  In exact
    arithmetic, for every maxN the loop returns the points
    (x, x / ln x, 0) at x = 2, 2.5, 3, ... up to maxN, whatever the fuel,
    each with a positive ordinate.  In binary64, with maxN = 100 and
    whatever [Math.log] is, the abscissae are exactly the 197 halves
    2, 2.5, ..., 100 (the step 0.5 adds without rounding), so the curve
    ends exactly at maxN. *)
Theorem approxPoints_samples :
  (forall maxN : R,
      exists K,
        passes 2 maxN (5 / 10) K
        /\ (exists fuel,
              InitPrimes.approxPoints_of fuel maxN =
              Some (map (fun k => let x0 := (2 + INR k * (5 / 10))%R in
                                  Primes.mkVector3 x0 (x0 / ln x0)%R 0%R)
                        (seq 0 K)))
        /\ (forall fuel pts,
              InitPrimes.approxPoints_of fuel maxN = Some pts ->
              pts = map (fun k => let x0 := (2 + INR k * (5 / 10))%R in
                                  Primes.mkVector3 x0 (x0 / ln x0)%R 0%R)
                        (seq 0 K)
              /\ Forall (fun p => (2 <= Primes.x p <= maxN)%R
                                  /\ (0 < Primes.y p)%R) pts))
  /\ (forall m : Libm,
        (exists fuel pts,
            InitPrimes.approxPoints_of (num := float) fuel (lit 100)
            = Some pts)
        /\ (forall fuel pts,
              InitPrimes.approxPoints_of (num := float) fuel (lit 100)
              = Some pts ->
              half_grid_ok (map Primes.x pts) = true
              /\ Forall (fun p =>
                           Primes.y p
                           = (Primes.x p / libm_log (Primes.x p))%float
                           /\ Primes.z p = 0%float) pts)).
Proof.
  split.
  - exact approxPoints_exact.
  - intros m. apply approxPoints_binary64.
Qed.

(** X12.  The abscissae of the Riemann sum (section 7), with maxN = 100.
    In exact arithmetic, for positive ordinates, the loop returns and its
    points are at the 491 abscissae 2, 2.2, ..., 100.  In binary64,
    whatever [Math] is and whatever the ordinates, the loop returns (every
    inner loop included) and its points are at 490 abscissae, each within
    2^-40 of 2 + k/5, the last below 99.81: the rounding of x += 0.2 takes
    the last candidate just above 100, so the curve stops one sample short
    of maxN. *)
Theorem sumPoints_abscissae :
  (forall gs : list R,
      Forall (fun gamma => (0 < gamma)%R) gs ->
      (exists fuel pts, Primes.sumPoints_of fuel 100%R gs = Some pts)
      /\ (forall fuel pts,
            Primes.sumPoints_of fuel 100%R gs = Some pts ->
            map Primes.x pts
            = map (fun k => (2 + INR k * (2 / 10))%R) (seq 0 491)))
  /\ (forall (m : Libm) (gs : list float),
        (exists fuel pts, Primes.sumPoints_of fuel (lit 100) gs = Some pts)
        /\ (forall fuel pts,
              Primes.sumPoints_of fuel (lit 100) gs = Some pts ->
              x_grid_ok (map Primes.x pts) = true)).
Proof.
  split.
  - intros gs _. apply sumPoints_abscissae_exact.
  - intros m gs. apply sumPoints_abscissae_binary64.
Qed.

(** X12 in exact arithmetic at the ordinates of the source. *)
Lemma sumPoints_abscissae_witness :
  (exists fuel pts, Primes.sumPoints_of fuel 100%R Primes.gammas = Some pts)
  /\ (forall fuel pts,
        Primes.sumPoints_of fuel 100%R Primes.gammas = Some pts ->
        map Primes.x pts
        = map (fun k => (2 + INR k * (2 / 10))%R) (seq 0 491)).
Proof.
  apply (proj1 sumPoints_abscissae Primes.gammas). exact gammas_positive.
Defined.

(** ** The waves: layout, mirror pairs, samples *)

Section WavesExact.
Import Primes InitPrimes.
Local Open Scope R_scope.

Lemma strict_eq_R_true (a : R) : strict_eq a a = true.
Proof.
  unfold strict_eq, StrictEq_R.
  destruct (Req_dec_T a a); [reflexivity|contradiction].
Qed.

Lemma strict_eq_R_false (a b : R) : a <> b -> strict_eq a b = false.
Proof.
  unfold strict_eq, StrictEq_R.
  destruct (Req_dec_T a b); [contradiction|reflexivity].
Qed.

Lemma indexOf_from_notin (gs : list R) (v : R) :
  forall i0, ~ In v gs -> indexOf_from gs v i0 = (-1)%Z.
Proof.
  induction gs as [|g gs IH]; intros i0 Hn; cbn [indexOf_from].
  - reflexivity.
  - rewrite strict_eq_R_false by (intros ->; apply Hn; left; reflexivity).
    apply IH. intros H. apply Hn. right. exact H.
Qed.

Lemma indexOf_from_nth (gs : list R) :
  forall (i : nat) (i0 : Z),
    NoDup gs -> (i < length gs)%nat ->
    indexOf_from gs (nth i gs 0) i0 = (i0 + Z.of_nat i)%Z.
Proof.
  induction gs as [|g gs IH]; intros i i0 Hnd Hi; [simpl in Hi; lia|].
  inversion Hnd as [|? ? Hg Hnd']; subst.
  destruct i as [|i]; cbn [nth indexOf_from].
  - rewrite strict_eq_R_true. lia.
  - rewrite strict_eq_R_false.
    + rewrite IH by (assumption || (simpl in Hi; lia)). lia.
    + intros ->. apply Hg. apply nth_In. simpl in Hi. lia.
Qed.

Lemma zOffset_exact (gs : list R) :
  NoDup gs -> Forall (fun g => 0 < g) gs ->
  (forall i, (i < length gs)%nat ->
     zOffset gs (nth i gs 0) = 4 * (INR i + 1)
     /\ zOffset gs (- nth i gs 0) = - (4 * (INR i + 1)))
  /\ (forall gamma, ~ In (Rabs gamma) gs -> zOffset gs gamma = 0).
Proof.
  intros Hnd Hpos. split.
  - intros i Hi.
    assert (Hg : 0 < nth i gs 0).
    { rewrite Forall_forall in Hpos. apply Hpos, nth_In, Hi. }
    unfold zOffset, rank, sign, indexOf. js_R.
    rewrite Rabs_Ropp, Rabs_pos_eq by lra.
    rewrite indexOf_from_nth by assumption.
    rewrite Rltb_true by lra. rewrite Rltb_false by lra.
    cbn [Z.add]. rewrite <- INR_IZR_INZ. split; ring.
  - intros gamma Hn. unfold zOffset, rank, indexOf. js_R.
    rewrite indexOf_from_notin by assumption.
    replace (IZR (-1)) with (-1) by reflexivity. ring.
Qed.

Lemma zOffset_opp_exact (gs : list R) (gamma : R) :
  gamma <> 0 -> zOffset gs (- gamma) = - zOffset gs gamma.
Proof.
  intros Hg. unfold zOffset, rank, sign. js_R. rewrite Rabs_Ropp.
  destruct (Rlt_dec 0 gamma) as [Hp|Hn].
  - rewrite (Rltb_true 0 gamma), (Rltb_false 0 (- gamma)) by lra. ring.
  - rewrite (Rltb_false 0 gamma), (Rltb_true 0 (- gamma)) by lra. ring.
Qed.

Lemma wavePoints_mirror_exact (fuel : nat) (maxN : R) (gs : list R)
  (gamma : R) :
  gamma <> 0 ->
  wavePoints_of fuel maxN gs (- gamma) =
  option_map (map mirror) (wavePoints_of fuel maxN gs gamma).
Proof.
  intros Hg. unfold wavePoints_of. rewrite !wave_loop_abscissae.
  destruct (abscissae fuel maxN (dec 2 10) (lit 2)) as [xs|]; [|reflexivity].
  cbn [option_map app]. rewrite map_map. f_equal. apply map_ext.
  intros x0. unfold mirror. cbn [x y z].
  rewrite zOffset_opp_exact by assumption. rewrite waveY_opp. reflexivity.
Qed.

Lemma gammas_distinct : NoDup (gammas (num := R)).
Proof.
  unfold gammas; js_R.
  repeat (constructor; [cbn [In]; intuition lra|]). constructor.
Qed.

End WavesExact.

Section WavesLayoutBinary64.
Context {m : Libm}.
Import Primes InitPrimes.
Local Open Scope float_scope.

Lemma zOffset_gammas_binary64 :
  map (zOffset gammas) allGammas =
  map Z2F [4; 8; 12; 16; 20; 24; 28; 32; 36; 40;
           -4; -8; -12; -16; -20; -24; -28; -32; -36; -40]%Z.
Proof. vm_compute. reflexivity. Qed.

Lemma zOffset_opp_binary64 (gs : list float) (gamma : float) :
  (0 <? gamma) || (gamma <? 0) = true ->
  zOffset gs (- gamma) = - zOffset gs gamma.
Proof.
  intros Hg. unfold zOffset, rank, sign.
  cbn [lit plus times neg lt Math_abs Number_float].
  change (Z2F 0) with 0. rewrite abs_opp.
  apply orb_true_iff in Hg. destruct Hg as [Hp|Hn].
  - rewrite Hp, (ltb_opp_pos _ Hp). rewrite !mul_opp_l. reflexivity.
  - destruct (ltb_opp_neg _ Hn) as [H1 H2]. rewrite H1, H2.
    rewrite !mul_opp_l, opp_opp. reflexivity.
Qed.

Lemma wavePoints_mirror_binary64 (Hpar : Libm_parity m) (fuel : nat)
  (maxN : float) (gs : list float) (gamma : float) :
  (0 <? gamma) || (gamma <? 0) = true ->
  wavePoints_of fuel maxN gs (- gamma) =
  option_map (map mirror) (wavePoints_of fuel maxN gs gamma).
Proof.
  intros Hg. unfold wavePoints_of. rewrite !wave_loop_abscissae.
  destruct (abscissae fuel maxN (dec 2 10) (lit 2)) as [xs|]; [|reflexivity].
  cbn [option_map app]. rewrite map_map. f_equal. apply map_ext.
  intros x0. unfold mirror. cbn [x y z].
  rewrite zOffset_opp_binary64 by assumption.
  rewrite (waveY_opp_binary64 Hpar). reflexivity.
Qed.

End WavesLayoutBinary64.

(** X14.  The depth of the waves.  In exact arithmetic, for every list of
    distinct positive ordinates: the wave of the i-th ordinate (from 0) is
    drawn at z = 4 (i + 1), that of its opposite at z = -4 (i + 1), and a
    wave whose |gamma| is not in the list ([indexOf] returns -1) at z = 0.
    In binary64, the twenty waves of the source lie at
    z = 4, 8, ..., 40, -4, -8, ..., -40. *)
Theorem waves_layout :
  (forall gs : list R,
      NoDup gs -> Forall (fun g => (0 < g)%R) gs ->
      (forall i, (i < length gs)%nat ->
         InitPrimes.zOffset gs (nth i gs 0%R) = (4 * (INR i + 1))%R
         /\ InitPrimes.zOffset gs (- nth i gs 0)%R
            = (- (4 * (INR i + 1)))%R)
      /\ (forall gamma,
            ~ In (Rabs gamma) gs -> InitPrimes.zOffset gs gamma = 0%R))
  /\ (forall m : Libm,
        map (InitPrimes.zOffset Primes.gammas) Primes.allGammas =
        map Z2F [4; 8; 12; 16; 20; 24; 28; 32; 36; 40;
                 -4; -8; -12; -16; -20; -24; -28; -32; -36; -40]%Z).
Proof.
  split.
  - exact zOffset_exact.
  - intros m. apply zOffset_gammas_binary64.
Qed.

(** X14 in exact arithmetic at the ordinates of the source. *)
Lemma waves_layout_witness :
  (forall i, (i < length (Primes.gammas (num := R)))%nat ->
     InitPrimes.zOffset Primes.gammas (nth i Primes.gammas 0%R)
     = (4 * (INR i + 1))%R
     /\ InitPrimes.zOffset Primes.gammas (- nth i Primes.gammas 0)%R
        = (- (4 * (INR i + 1)))%R)
  /\ (forall gamma,
        ~ In (Rabs gamma) Primes.gammas ->
        InitPrimes.zOffset Primes.gammas gamma = 0%R).
Proof.
  apply (proj1 waves_layout Primes.gammas).
  - exact gammas_distinct.
  - exact gammas_positive.
Defined.

(** X15.  The waves come in mirror pairs.  For every bound, every list of
    ordinates and every gamma other than 0, the points of the wave of
    -gamma are those of the wave of gamma with y and z negated, point for
    point: in exact arithmetic, and bit for bit in binary64 when
    [Math.sin] is odd. *)
Theorem wavePoints_mirror :
  (forall (fuel : nat) (maxN : R) (gs : list R) (gamma : R),
      gamma <> 0%R ->
      InitPrimes.wavePoints_of fuel maxN gs (- gamma)%R =
      option_map (map mirror) (InitPrimes.wavePoints_of fuel maxN gs gamma))
  /\ (forall m : Libm, Libm_parity m ->
        forall (fuel : nat) (maxN : float) (gs : list float) (gamma : float),
          PrimFloat.ltb 0 gamma || PrimFloat.ltb gamma 0 = true ->
          InitPrimes.wavePoints_of fuel maxN gs (- gamma)%float =
          option_map (map mirror)
                     (InitPrimes.wavePoints_of fuel maxN gs gamma)).
Proof.
  split.
  - exact wavePoints_mirror_exact.
  - intros m Hpar. apply wavePoints_mirror_binary64. exact Hpar.
Qed.

(** X15 in binary64 with the series library: the first wave of the source
    (gamma = 14.13, maxN = 100). *)
Lemma wavePoints_mirror_witness :
  InitPrimes.wavePoints_of (N := Number_series) 1000 100%float
    (Primes.gammas (N := Number_series)) (- (1413 / 100))%float =
  option_map (map (mirror (N := Number_series)))
    (InitPrimes.wavePoints_of (N := Number_series) 1000 100%float
       (Primes.gammas (N := Number_series)) (1413 / 100)%float).
Proof.
  apply (proj2 wavePoints_mirror Series.libm Series_parity).
  vm_compute. reflexivity.
Defined.

(** X16.  The samples of a wave (section 6), with maxN = 100.  In exact
    arithmetic, for every gamma other than 0, the loop returns the 491
    points (x, -(sqrt x / |gamma|) sin(gamma ln x), zOffset) at
    x = 2, 2.2, ..., 100, whatever the fuel.  In binary64, whatever [Math]
    is, it returns 490 points, each on the wave at the depth of gamma, at
    abscissae within 2^-40 of 2 + k/5 of which the last is below 99.81:
    the wave stops one sample short of maxN. *)
Theorem wavePoints_samples :
  (forall (gs : list R) (gamma : R),
      gamma <> 0%R ->
      let points :=
        map (fun k => let x0 := (2 + INR k * (2 / 10))%R in
                      Primes.mkVector3 x0 (Primes.waveY x0 gamma)
                                       (InitPrimes.zOffset gs gamma))
            (seq 0 491) in
      (exists fuel, InitPrimes.wavePoints_of fuel 100%R gs gamma = Some points)
      /\ (forall fuel pts,
            InitPrimes.wavePoints_of fuel 100%R gs gamma = Some pts ->
            pts = points))
  /\ (forall (m : Libm) (gs : list float) (gamma : float),
        (exists fuel pts,
            InitPrimes.wavePoints_of fuel (lit 100) gs gamma = Some pts)
        /\ (forall fuel pts,
              InitPrimes.wavePoints_of fuel (lit 100) gs gamma = Some pts ->
              x_grid_ok (map Primes.x pts) = true
              /\ Forall (fun p =>
                           Primes.y p = Primes.waveY (Primes.x p) gamma
                           /\ Primes.z p = InitPrimes.zOffset gs gamma)
                        pts)).
Proof.
  split.
  - intros gs gamma _. apply wavePoints_exact.
  - intros m gs gamma. apply wavePoints_binary64.
Qed.

(** X16 in exact arithmetic at the first ordinate of the source. *)
Lemma wavePoints_samples_witness :
  let points :=
    map (fun k => let x0 := (2 + INR k * (2 / 10))%R in
                  Primes.mkVector3 x0 (Primes.waveY x0 (1413 / 100)%R)
                    (InitPrimes.zOffset Primes.gammas (1413 / 100)%R))
        (seq 0 491) in
  (exists fuel,
      InitPrimes.wavePoints_of fuel 100%R Primes.gammas (1413 / 100)%R
      = Some points)
  /\ (forall fuel pts,
        InitPrimes.wavePoints_of fuel 100%R Primes.gammas (1413 / 100)%R
        = Some pts ->
        pts = points).
Proof.
  apply (proj1 wavePoints_samples Primes.gammas (1413 / 100)%R). lra.
Defined.

(** ** The curve of zeta on a vertical line *)

Section ZetaCurveBinary64.
Context {m : Libm}.
Import Primes.

(** X18.  The zeta curve in binary64.  Whatever [Math] is and for every
    sigma, [createZetaCurve] returns, whatever the fuel, 12001 points
    (8 Re z, t, 8 Im z) with z = zeta((sigma, t), 200); their ordinates t
    start at -60, stay within 2^-36 of -60 + k/100, are never exactly 0
    (the sample nearest to the real axis misses it) and end below 60. *)
Theorem createZetaCurve_binary64 (sigma : float) :
  (exists fuel pts, InitZeta.createZetaCurve fuel sigma = Some pts)
  /\ (forall fuel pts,
        InitZeta.createZetaCurve fuel sigma = Some pts ->
        t_grid_ok (map y pts) = true
        /\ Forall (fun p =>
                     let z := Zeta.zeta (Zeta.mkComplex sigma (y p)) 200 in
                     x p = (Zeta.re z * 8)%float
                     /\ Primes.z p = (Zeta.im z * 8)%float) pts).
Proof.
  pose proof t_grid as Hg.
  destruct (abscissae (Z.to_nat 12001) (lit 60) (dec 1 100) (- lit 60)%js)
    as [ts|] eqn:E; [|discriminate].
  cbn [option_map] in Hg. apply Some_eq in Hg.
  split.
  - exists (Z.to_nat 12001). eexists.
    unfold InitZeta.createZetaCurve. rewrite curve_loop_abscissae.
    rewrite E. reflexivity.
  - intros fuel pts Hpts. unfold InitZeta.createZetaCurve in Hpts.
    rewrite curve_loop_abscissae in Hpts.
    destruct (abscissae fuel (lit 60) (dec 1 100) (- lit 60)%js)
      as [ts'|] eqn:E'; [|discriminate].
    pose proof (@abscissae_indep float (@Number_float m) _ _ _ _ _ _ _
                  E E') as ->.
    apply Some_eq in Hpts. subst pts. cbn [app]. split.
    + rewrite map_map. cbn [y]. rewrite map_id. exact Hg.
    + apply Forall_forall. intros p Hp. apply in_map_iff in Hp.
      destruct Hp as (t & <- & _). cbn. split; reflexivity.
Qed.

End ZetaCurveBinary64.

(** ** The curves of the zeta view against those of the primes view *)

Section Views.
Context {num : Type} {N : Number num}.
Import Primes.
Local Open Scope js_scope.

Hypothesis zero_twice : lit 0 * lit 2 = lit 0.

Lemma fold_pi_closed (primes : list Z) :
  forall (pts : list (Vector3 num)) (count : Z),
    y (last pts (mkVector3 (lit 0) (lit 0) (lit 0))) = lit count * lit 2 ->
    fold_left InitZeta.pi_body primes (pts, count) =
      (pts ++ map worldZ
                (flat_map step_at
                   (combine (Zrange count (length primes)) primes)),
       (count + Z.of_nat (length primes))%Z).
Proof.
  induction primes as [|p primes IH]; intros pts count Hlast.
  - simpl. rewrite app_nil_r, Z.add_0_r. reflexivity.
  - cbn [fold_left]. unfold InitZeta.pi_body at 2. rewrite Hlast.
    rewrite IH by (rewrite last_last; reflexivity).
    cbn [length]. rewrite Zrange_S. cbn [combine flat_map step_at map].
    rewrite <- !app_assoc. cbn [app]. f_equal. lia.
Qed.

(** X19.  The steps of the zeta view are those of the primes view, in
    world coordinates.  In every model of the numbers where 0 * 2 is 0
    (binary64 and exact arithmetic are), for every strictly increasing
    list of positive primes: [stepPoints] is the origin, a body and the
    closing point (maxN, n), and [piPoints] is (0, 0, 0) followed by that
    body with x mapped to (x - 0.5) * 8 and the count to count * 2.  The
    zeta view has no closing segment, and starts at world x = 0. *)
Theorem piPoints_in_world (primes : list Z) (maxN : Z) :
  StronglySorted Z.lt (0%Z :: primes) ->
  exists body,
    stepPoints_of primes maxN =
      origin :: body ++ [mkVector3 maxN (Z.of_nat (length primes)) 0%Z]
    /\ InitZeta.piPoints_of primes =
       mkVector3 (lit 0) (lit 0) (lit 0) :: map worldZ body.
Proof.
  intros Hs.
  exists (flat_map step_at (combine (Zrange 0 (length primes)) primes)).
  split.
  - unfold stepPoints_of.
    rewrite (fold_step_closed primes [origin] 0%Z 0%Z eq_refl Hs).
    reflexivity.
  - unfold InitZeta.piPoints_of. rewrite fold_pi_closed.
    + reflexivity.
    + cbn [last y]. symmetry. exact zero_twice.
Qed.

(** X20.  The Li curve of the zeta view is the Li curve of the primes view
    from 2 to 13 by 0.1, in world coordinates: in every model of the
    numbers where 0 * 2 is 0, and for every fuel, [liPoints] of the zeta
    view is the image of [liPoints] of the primes view under
    (x, y) -> ((x - 0.5) * 8, y * 2), point for point. *)
Theorem liPoints_in_world (fuel : nat) :
  InitZeta.liPoints_of fuel =
  option_map (map world) (Primes.liPoints_of fuel (lit 2) (lit 13) (dec 1 10)).
Proof.
  unfold InitZeta.liPoints_of, Primes.liPoints_of.
  rewrite <- li_loop_world. cbn [map]. unfold world at 1. cbn [x y z].
  rewrite zero_twice. reflexivity.
Qed.

End Views.

(** X19 in binary64 at the primes of the zeta view. *)
Lemma piPoints_in_world_witness :
  exists body,
    Primes.stepPoints_of InitZeta.primes 13 =
      Primes.origin
      :: body ++ [Primes.mkVector3 13%Z
                    (Z.of_nat (length InitZeta.primes)) 0%Z]
    /\ InitZeta.piPoints_of (N := Number_series) InitZeta.primes =
       Primes.mkVector3 0%float 0%float 0%float
       :: map (worldZ (N := Number_series)) body.
Proof.
  apply (@piPoints_in_world float Number_series eq_refl InitZeta.primes 13%Z).
  unfold InitZeta.primes. repeat constructor; lia.
Defined.

(** X20 in binary64 with the series library. *)
Lemma liPoints_in_world_witness :
  InitZeta.liPoints_of (N := Number_series) 200 =
  option_map (map (world (N := Number_series)))
    (Primes.liPoints_of (N := Number_series) 200 2%float 13%float
       (1 / 10)%float).
Proof.
  apply (@liPoints_in_world float Number_series eq_refl 200%nat).
Defined.

Section ApproxWorld.
Import Primes.

Lemma approxPoints_world (num : Type) (N : Number num) (fuel : nat) :
  InitZeta.approxPoints_of fuel =
  option_map
    (fun xs =>
       map (fun x => world (mkVector3 x (x / Math_log x)%js (lit 0)))
           (lit 2 :: xs))
    (abscissae fuel (lit 13) (dec 1 10) (lit 2)).
Proof.
  unfold InitZeta.approxPoints_of. rewrite approx_world_abscissae.
  destruct (abscissae fuel (lit 13) (dec 1 10) (lit 2)); reflexivity.
Qed.

Lemma abscissae_head (num : Type) (N : Number num) (fuel : nat)
  (bound step x0 : num) (xs : list num) :
  (x0 <=? bound)%js = true ->
  abscissae fuel bound step x0 = Some xs -> exists xs', xs = x0 :: xs'.
Proof.
  intros Hle H. destruct fuel; cbn [abscissae] in H; rewrite Hle in H;
    [discriminate|].
  destruct (abscissae fuel bound step (x0 + step)%js) as [l|];
    [|discriminate].
  apply Some_eq in H. subst xs. eexists; reflexivity.
Qed.

Lemma approxPoints_twice (num : Type) (N : Number num) (fuel : nat)
  (pts : list (Vector3 num)) :
  (lit 2 <=? lit 13)%js = true ->
  InitZeta.approxPoints_of fuel = Some pts ->
  exists xs,
    pts = map (fun x => world (mkVector3 x (x / Math_log x)%js (lit 0)))
              (lit 2 :: lit 2 :: xs).
Proof.
  intros Hle Hpts. rewrite approxPoints_world in Hpts.
  destruct (abscissae fuel (lit 13) (dec 1 10) (lit 2)) as [xs|] eqn:E;
    [|discriminate].
  apply Some_eq in Hpts. subst pts.
  destruct (abscissae_head _ _ _ _ _ _ _ Hle E) as [xs' ->].
  exists xs'. reflexivity.
Qed.

Lemma approx_grid (m : Libm) :
  returns (abscissae (num := float) 200 (lit 13) (dec 1 10) (lit 2)) = true.
Proof. vm_compute. reflexivity. Qed.

End ApproxWorld.

(** X21.  The curve x / ln x of the zeta view.  In exact arithmetic and in
    binary64 (whatever [Math] is) the loop returns, and whatever the fuel
    its points are the images under (x, y) -> ((x - 0.5) * 8, y * 2) of
    points (x, x / ln x) of the curve, the first of which, at x = 2, is
    there twice: once pushed before the loop and once by its first
    pass. *)
Theorem approxPoints_in_world :
  ((exists fuel pts, InitZeta.approxPoints_of (num := R) fuel = Some pts)
   /\ (forall fuel pts,
         InitZeta.approxPoints_of (num := R) fuel = Some pts ->
         exists xs,
           pts = map (fun x =>
                        world (Primes.mkVector3 x (x / ln x)%R 0%R))
                     (2%R :: 2%R :: xs)))
  /\ (forall m : Libm,
        (exists fuel pts,
            InitZeta.approxPoints_of (num := float) fuel = Some pts)
        /\ (forall fuel pts,
              InitZeta.approxPoints_of (num := float) fuel = Some pts ->
              exists xs,
                pts = map (fun x =>
                             world (Primes.mkVector3 x (x / libm_log x)%float
                                                     0%float))
                          (2%float :: 2%float :: xs))).
Proof.
  split; [split|intros m; split].
  - assert (Hs : (0 < 1 / 10)%R) by lra.
    destruct (passes_exist 2 13 (1 / 10) Hs) as [K HK].
    exists K. eexists. rewrite approxPoints_world. js_R.
    rewrite (abscissae_exact 13 (1 / 10) K 2 K HK (le_n _)). reflexivity.
  - intros fuel pts Hpts.
    apply (approxPoints_twice R Number_R fuel pts); [|exact Hpts].
    js_R. apply Rleb_true. lra.
  - pose proof (approx_grid m) as Hg.
    exists 200%nat. rewrite approxPoints_world.
    destruct (abscissae 200 (lit 13) (dec 1 10) (lit 2)) as [xs|];
      [|discriminate].
    eexists; reflexivity.
  - intros fuel pts Hpts.
    apply (approxPoints_twice float (@Number_float m) fuel pts);
      [reflexivity|exact Hpts].
Qed.

(** ** The abscissae of the Li curve in binary64 *)

Section LiBinary64.
Context {m : Libm}.
Import Primes.

(** X22.  The Li curve of the primes view in binary64, from 2 to 100 by
    0.1.  Whatever [Math.log] is, the loop returns, and whatever the fuel
    its 982 points are at abscissae within 2^-39 of 2 + k/10; the last one
    lies between 100 and 100.1: as in exact arithmetic, the curve runs one
    step beyond maxN. *)
Theorem liPoints_abscissae_binary64 :
  (exists fuel pts,
      liPoints_of (num := float) fuel (lit 2) (lit 100) (dec 1 10)
      = Some pts)
  /\ (forall fuel pts,
        liPoints_of (num := float) fuel (lit 2) (lit 100) (dec 1 10)
        = Some pts ->
        li_grid_ok (map x pts) = true).
Proof.
  pose proof li_grid as Hg.
  destruct (abscissae 1000 (lit 100) (dec 1 10) (lit 2)) as [xs|] eqn:E;
    [|discriminate].
  cbn [option_map] in Hg. apply Some_eq in Hg.
  split.
  - exists 1000%nat. unfold liPoints_of. eapply li_loop_returns. exact E.
  - intros fuel pts Hpts. unfold liPoints_of in Hpts.
    apply li_loop_abscissae in Hpts. destruct Hpts as (xs' & Hxs & ->).
    pose proof (@abscissae_indep float (@Number_float m) _ _ _ _ _ _ _
                  E Hxs) as ->.
    exact Hg.
Qed.

End LiBinary64.

(** ** The quadratures as the code computes them *)

Section Quadratures.
Context {num : Type} {N : Number num}.
Import Primes.
Local Open Scope js_scope.



Lemma inner_visits_length (f : nat) (xs : list num) :
  forall tss, inner_visits f xs = Some tss -> length tss = length xs.
Proof.
  induction xs as [|x0 xs IH]; intros tss H; cbn [inner_visits] in H.
  - apply Some_eq in H. subst tss. reflexivity.
  - destruct (abscissae_lt f x0 (dec 1 10) (lit 2)) as [ts|]; [|discriminate].
    destruct (inner_visits f xs) as [r|]; [|discriminate].
    apply Some_eq in H. subst tss. cbn [length]. f_equal. apply IH.
    reflexivity.
Qed.





(** The Li loop accumulates the midpoint rectangles over the values of x it
    visits. *)
Lemma li_loop_scan (fuel : nat) (maxN dt : num) :
  forall (x0 integral : num) (pts r : list (Vector3 num)),
    li_loop fuel maxN dt x0 integral pts = Some r ->
    exists ts,
      abscissae fuel maxN dt x0 = Some ts
      /\ r = pts
             ++ map (fun k =>
                       mkVector3 (nth k ts (lit 0) + dt)
                         (fold_left
                            (fun i t => i + lit 1 / Math_log (t + dt / lit 2) * dt)
                            (firstn (S k) ts) integral)
                         (lit 0))
                    (seq 0 (length ts)).
Proof.
  induction fuel as [|fuel IH]; intros x0 integral pts r;
    cbn [li_loop abscissae]; destruct (x0 <=? maxN); try discriminate;
    try (intros H; apply Some_eq in H; subst r; exists []; split;
         [reflexivity|symmetry; apply app_nil_r]).
  intros Hr. apply IH in Hr. destruct Hr as (ts & -> & ->).
  exists (x0 :: ts). split; [reflexivity|].
  rewrite <- app_assoc. f_equal.
  cbn [length seq map app nth firstn fold_left]. f_equal.
  rewrite <- seq_shift, map_map. apply map_ext. intros k. reflexivity.
Qed.

End Quadratures.

Section QuadraturesBinary64.
Context {m : Libm}.
Import Primes.


Lemma li_grid_increasing :
  option_map
    (fun xs =>
       strictly_increasingb (lit 2 :: map (fun x' => x' + dec 1 10)%js xs)
       && (length xs =? 981)%nat)
    (abscissae 1000 (lit 100) (dec 1 10) (lit 2))
  = Some true.
Proof. vm_compute. reflexivity. Qed.


Lemma liPoints_binary64_grid (fuel : nat) (pts : list (Vector3 float)) :
  liPoints_of (num := float) fuel (lit 2) (lit 100) (dec 1 10) = Some pts ->
  exists ts,
    abscissae fuel (lit 100) (dec 1 10) (lit 2) = Some ts
    /\ length ts = 981%nat
    /\ map x pts = lit 2 :: map (fun x' => x' + dec 1 10)%js ts
    /\ li_grid_ok (map x pts) = true
    /\ strictly_increasingb (map x pts) = true.
Proof.
  intros Hpts. unfold liPoints_of in Hpts.
  apply li_loop_abscissae in Hpts. destruct Hpts as (ts & Hts & Hx).
  exists ts. split; [exact Hts|].
  pose proof li_grid as Hg. pose proof li_grid_increasing as Hi.
  destruct (abscissae 1000 (lit 100) (dec 1 10) (lit 2)) as [ts'|] eqn:E;
    [|discriminate].
  pose proof (@abscissae_indep float (@Number_float m) _ _ _ _ _ _ _
                E Hts) as ->.
  cbn [option_map] in Hg, Hi. apply Some_eq in Hg. apply Some_eq in Hi.
  apply andb_true_iff in Hi. destruct Hi as [Hinc Hlen].
  apply Nat.eqb_eq in Hlen.
  rewrite Hx. cbn [map app x]. repeat split; assumption.
Qed.

Lemma liPoints_binary64_returns :
  exists fuel pts,
    liPoints_of (num := float) fuel (lit 2) (lit 100) (dec 1 10) = Some pts.
Proof.
  pose proof li_grid as Hg.
  destruct (abscissae 1000 (lit 100) (dec 1 10) (lit 2)) as [xs|] eqn:E;
    [|discriminate].
  exists 1000%nat. unfold liPoints_of. eapply li_loop_returns. exact E.
Qed.


End QuadraturesBinary64.






(** X9.  The Li curve is the midpoint rule over the abscissae the loop
    visits.  In every model of the numbers, whenever the loop of section 5
    returns, with [ts] the values its variable x takes: the samples are the
    starting point (from, 0) followed, for each k, by the point at
    x = ts[k] + stepSize whose value is the sum of the rectangles
    (1 / ln (t + stepSize/2)) * stepSize over t = ts[0], ..., ts[k], added
    in that order.  In binary64 with the constants of the source (from 2 to
    100 by 0.1), whatever [Math.log] is, the loop returns and visits 981
    values of x. *)
Theorem liPoints_midpoint_rule :
  (forall (num : Type) (N : Number num) (fuel : nat)
          (from to stepSize : num) (pts : list (Primes.Vector3 num)),
      Primes.liPoints_of fuel from to stepSize = Some pts ->
      exists ts,
        abscissae fuel to stepSize from = Some ts
        /\ pts = Primes.mkVector3 from (lit 0) (lit 0)
                 :: map (fun k =>
                           Primes.mkVector3
                             (nth k ts (lit 0) + stepSize)%js
                             (midpoint_rule stepSize (firstn (S k) ts))
                             (lit 0))
                        (seq 0 (length ts)))
  /\ (forall m : Libm,
        (exists fuel pts,
            Primes.liPoints_of (num := float) fuel (lit 2) (lit 100)
              (dec 1 10) = Some pts)
        /\ (forall fuel pts,
              Primes.liPoints_of (num := float) fuel (lit 2) (lit 100)
                (dec 1 10) = Some pts ->
              exists ts,
                abscissae (num := float) fuel (lit 100) (dec 1 10) (lit 2)
                = Some ts
                /\ length ts = 981%nat
                /\ length pts = 982%nat)).
Proof.
  split.
  - intros num N fuel from to stepSize pts Hpts.
    unfold Primes.liPoints_of in Hpts. apply li_loop_scan in Hpts.
    destruct Hpts as (ts & Hts & ->). exists ts. split; [exact Hts|].
    reflexivity.
  - intros m. split; [apply liPoints_binary64_returns|].
    intros fuel pts Hpts.
    destruct (liPoints_binary64_grid fuel pts Hpts)
      as (ts & Hts & Hlen & Hx & _ & _).
    exists ts. split; [exact Hts|]. split; [exact Hlen|].
    rewrite <- (length_map Primes.x), Hx. cbn [length].
    rewrite length_map, Hlen. reflexivity.
Qed.

(** X9 in binary64 with the series library, from 2 to 3 by 0.1. *)
Lemma liPoints_midpoint_rule_witness :
  exists pts ts,
    Primes.liPoints_of (N := Number_series) 50 2%float 3%float
      (1 / 10)%float = Some pts
    /\ abscissae (N := Number_series) 50 3%float (1 / 10)%float 2%float
       = Some ts
    /\ pts = Primes.mkVector3 2%float 0%float 0%float
             :: map (fun k =>
                       Primes.mkVector3
                         (nth k ts 0%float + 1 / 10)%float
                         (midpoint_rule (N := Number_series) (1 / 10)%float
                            (firstn (S k) ts))
                         0%float)
                    (seq 0 (length ts)).
Proof.
  destruct (Primes.liPoints_of (N := Number_series) 50 2%float 3%float
              (1 / 10)%float) as [pts|] eqn:E.
  - destruct (proj1 liPoints_midpoint_rule
                float Number_series 50%nat 2%float 3%float (1 / 10)%float
                pts E) as (ts & H).
    exists pts, ts. split; [reflexivity|exact H].
  - vm_compute in E. discriminate E.
Defined.
